(** * Magic Triples: counting index triples (i, j, k) with a[j]^2 = a[i] * a[k]

    A shallow embedding of the counting functions of the repository
    ([Graph.py]: [naive_triplets], [optimized_triplets];
     [solve_naive.py]: [solve_naive_unordered];
     [solve_optimized.py]: [solve_optimized]) and the properties the
    specification states about them.

    Python integers are unbounded, so every integer is a [Z] and every
    arithmetic operation is the exact one of [Z]; Python's [//] and [%]
    are floor division and its remainder, which are [Z.div] and
    [Z.modulo]. *)

From Stdlib Require Import String.
From Stdlib Require Import ZArith List Lia Bool Permutation.
Import ListNotations.
Local Open Scope Z_scope.

(** [LIMIT = 10**9], the module-level constant of both optimized scripts. *)
Definition LIMIT : Z := 1000000000.

(** ** Python primitives used by the scripts *)
Module Py.

(** [range(lo, hi)] over integers: the [n] integers from [lo] on, for
    [n = hi - lo] when that is positive. *)
Fixpoint range_from (lo : Z) (n : nat) : list Z :=
  match n with
  | O => []
  | S n' => lo :: range_from (lo + 1) n'
  end.

Definition range (lo hi : Z) : list Z := range_from lo (Z.to_nat (hi - lo)).

(** [a[i]] for an index the loops draw from [range(len(a))]. *)
Definition item (a : list Z) (i : nat) : Z := nth i a 0.

(** A [collections.Counter]: a dict from value to multiplicity, kept in
    insertion order (the order of first occurrence), as Python dicts are. *)
Definition counter : Type := list (Z * Z).

(** [freq[x] += 1], what [Counter(a)] does for each element [x]. *)
Fixpoint counter_incr (x : Z) (freq : counter) : counter :=
  match freq with
  | [] => [(x, 1)]
  | (k, c) :: rest =>
      if k =? x then (k, c + 1) :: rest else (k, c) :: counter_incr x rest
  end.

(** [Counter(a)]. *)
Definition Counter (a : list Z) : counter :=
  fold_left (fun freq x => counter_incr x freq) a [].

(** [freq.get(x, d)]. *)
Fixpoint get (freq : counter) (x d : Z) : Z :=
  match freq with
  | [] => d
  | (k, c) :: rest => if k =? x then c else get rest x d
  end.

(** [freq[x]]: a Counter answers 0 for a missing key and stores nothing. *)
Definition getitem (freq : counter) (x : Z) : Z := get freq x 0.

(** [x in freq]. *)
Definition contains (freq : counter) (x : Z) : bool :=
  existsb (fun kc => fst kc =? x) freq.

(** [freq.keys()] and [freq.items()]. *)
Definition keys (freq : counter) : list Z := map fst freq.
Definition items (freq : counter) : list (Z * Z) := freq.

(** A Python [set] of integers, as the list of its elements without
    repetition; [set_add x s] is [s.add(x)].  The scripts only sum over
    the set, so the order in which Python would iterate is immaterial. *)
Definition set_add (x : Z) (s : list Z) : list Z :=
  if existsb (Z.eqb x) s then s else s ++ [x].

(** Truthiness of an integer: [if c:] holds when [c] is not 0. *)
Definition truthy (c : Z) : bool := negb (c =? 0).

End Py.

(** ** [Graph.py] *)
Module Graph.
Import Py.

(** [naive_triplets(a)], lines 40-53: three nested loops over
    [range(n)], skipping [j == i] and [k == i or k == j]. *)
Definition naive_triplets (a : list Z) : Z :=
  let n := length a in
  fold_left (fun cnt i =>
    fold_left (fun cnt j =>
      if Nat.eqb j i then cnt else
      fold_left (fun cnt k =>
        if Nat.eqb k i || Nat.eqb k j then cnt else
        if item a j * item a j =? item a i * item a k then cnt + 1 else cnt)
        (seq 0 n) cnt)
      (seq 0 n) cnt)
    (seq 0 n) 0.

(** Lines 67-69: the loop over [freq.items()] for the case b = 1. *)
Definition degenerate_step (result : Z) (vc : Z * Z) : Z :=
  let '(_, c) := vc in
  if 3 <=? c then result + c * (c - 1) * (c - 2) else result.

(** Lines 78-83: the set of divisors of [mid], collected from the
    divisors [d <= isqrt(mid)] and their cofactors [mid // d]. *)
Definition b_set_of (mid : Z) : list Z :=
  let r := Z.sqrt mid in
  fold_left (fun b_set d =>
    if mid mod d =? 0 then set_add (mid / d) (set_add d b_set) else b_set)
    (range 1 (r + 1)) [].

(** Lines 86-100: the body of the loop over [b_set]. *)
Definition ratio_step (freq : counter) (mid cnt_mid result b : Z) : Z :=
  if b <=? 1 then result else
  let left := mid / b in
  let right := mid * b in
  if right >? LIMIT then result else
  let c_left := get freq left 0 in
  let c_right := get freq right 0 in
  if truthy c_left && truthy c_right
  then result + cnt_mid * c_left * c_right
  else result.

(** Lines 72-100: the body of the loop over [unique]. *)
Definition mid_step (freq : counter) (result mid : Z) : Z :=
  let cnt_mid := getitem freq mid in
  if mid <=? 1 then result else
  fold_left (ratio_step freq mid cnt_mid) (b_set_of mid) result.

(** [optimized_triplets(a)], lines 56-102. *)
Definition optimized_triplets (a : list Z) : Z :=
  let freq := Counter a in
  let unique := keys freq in
  let result := fold_left degenerate_step (items freq) 0 in
  fold_left (mid_step freq) unique result.

End Graph.

(** ** [solve_naive.py] *)
Module SolveNaive.
Import Py.

(** The counting loops of [solve_naive_unordered], lines 4-13, on the
    length [n] and the list [a] the function has read; [k] runs over
    [range(i + 1, n)]. *)
Definition solve_naive_unordered (n : nat) (a : list Z) : Z :=
  fold_left (fun count j =>
    fold_left (fun count i =>
      if Nat.eqb i j then count else
      fold_left (fun count k =>
        if Nat.eqb k j then count else
        if item a j * item a j =? item a i * item a k then count + 1 else count)
        (seq (i + 1) (n - (i + 1))) count)
      (seq 0 n) count)
    (seq 0 n) 0.

End SolveNaive.

(** ** Exceptions, the Counter as a heap object, and loops that may not end

    The optimized scripts divide, take integer square roots and consult
    the Counter [freq] while they count.  The monad [M] makes these
    effects explicit: a computation reads and returns the Counter the
    variable [freq] refers to, and ends by returning a value, by raising
    a Python exception, or by exhausting the fuel granted to a [while]
    loop. *)
Module Exec.
Import Py.

Inductive exn : Type :=
| ZeroDivisionError
| ValueError.

Inductive outcome (A : Type) : Type :=
| Return (x : A)
| Raise (e : exn)
| OutOfFuel.
Arguments Return {A} x.
Arguments Raise {A} e.
Arguments OutOfFuel {A}.

Definition M (A : Type) : Type := counter -> outcome (A * counter).

Definition ret {A} (x : A) : M A := fun freq => Return (x, freq).

Definition bind {A B} (m : M A) (k : A -> M B) : M B :=
  fun freq =>
    match m freq with
    | Return (x, freq') => k x freq'
    | Raise e => Raise e
    | OutOfFuel => OutOfFuel
    end.

Definition raise {A} (e : exn) : M A := fun _ => Raise e.
Definition out_of_fuel {A} : M A := fun _ => OutOfFuel.

Declare Scope exec_scope.
Delimit Scope exec_scope with exec.
Notation "x <- m ;; k" := (bind m (fun x => k))
  (at level 61, m at next level, right associativity) : exec_scope.
Local Open Scope exec_scope.

(** [x // y] and [x % y] raise ZeroDivisionError on a zero divisor. *)
Definition floordiv (x y : Z) : M Z :=
  if y =? 0 then raise ZeroDivisionError else ret (x / y).
Definition pymod (x y : Z) : M Z :=
  if y =? 0 then raise ZeroDivisionError else ret (x mod y).

(** [math.isqrt(x)] raises ValueError on a negative argument. *)
Definition isqrt (x : Z) : M Z :=
  if x <? 0 then raise ValueError else ret (Z.sqrt x).

(** The operations of the scripts on [freq]. *)
Definition freq_getitem (x : Z) : M Z :=
  fun freq => Return (getitem freq x, freq).
Definition freq_get (x d : Z) : M Z :=
  fun freq => Return (get freq x d, freq).
Definition freq_contains (x : Z) : M bool :=
  fun freq => Return (contains freq x, freq).
Definition freq_keys : M (list Z) :=
  fun freq => Return (keys freq, freq).
Definition freq_items : M (list (Z * Z)) :=
  fun freq => Return (items freq, freq).

(** [for x in l: acc = body(acc, x)]. *)
Fixpoint for_each {A B} (l : list A) (body : B -> A -> M B) (acc : B) : M B :=
  match l with
  | [] => ret acc
  | x :: l' => acc' <- body acc x ;; for_each l' body acc'
  end.

(** The value a run returned, if it did. *)
Definition returned {A} (o : outcome (A * counter)) : option A :=
  match o with
  | Return (x, _) => Some x
  | _ => None
  end.

(** A run failed when it raised an exception. *)
Definition failed {A} (o : outcome A) : Prop := exists e, o = Raise e.

(** [optimized_triplets] of [Graph.py], lines 62-102, statement by
    statement, after [freq = Counter(a)]. *)
Definition collect_divisor (mid : Z) (b_set : list Z) (d : Z) : M (list Z) :=
  m <- pymod mid d ;;
  if m =? 0
  then q <- floordiv mid d ;; ret (set_add q (set_add d b_set))
  else ret b_set.

Definition ratio_body (mid cnt_mid result b : Z) : M Z :=
  if b <=? 1 then ret result else
  left <- floordiv mid b ;;
  let right := mid * b in
  if right >? LIMIT then ret result else
  c_left <- freq_get left 0 ;;
  c_right <- freq_get right 0 ;;
  if truthy c_left && truthy c_right
  then ret (result + cnt_mid * c_left * c_right)
  else ret result.

Definition mid_body (result mid : Z) : M Z :=
  cnt_mid <- freq_getitem mid ;;
  if mid <=? 1 then ret result else
  r <- isqrt mid ;;
  b_set <- for_each (range 1 (r + 1)) (collect_divisor mid) [] ;;
  for_each b_set (ratio_body mid cnt_mid) result.

Definition optimized_triplets_body : M Z :=
  unique <- freq_keys ;;
  its <- freq_items ;;
  result <- for_each its (fun r vc => ret (Graph.degenerate_step r vc)) 0 ;;
  for_each unique mid_body result.

Definition run_optimized_triplets (a : list Z) : outcome (Z * counter) :=
  optimized_triplets_body (Counter a).

End Exec.

(** ** [solve_optimized.py] *)
Module SolveOptimized.
Import Py Exec.
Local Open Scope exec_scope.

(** Lines 29-30, 39-40 and 47-48:
    [if left in freq and right in freq: ret += cnt_val * freq[left] * freq[right]]. *)
Definition add_pair (cnt_val left right ret0 : Z) : M Z :=
  has_left <- freq_contains left ;;
  if has_left then
    has_right <- freq_contains right ;;
    if has_right then
      c_left <- freq_getitem left ;;
      c_right <- freq_getitem right ;;
      ret (ret0 + cnt_val * c_left * c_right)
    else ret ret0
  else ret ret0.

(** Lines 26-30: the body of [for b in range(2, max_b + 1)]. *)
Definition large_step (val cnt_val ret0 b : Z) : M Z :=
  m <- pymod val b ;;
  if m =? 0 then
    left <- floordiv val b ;;
    add_pair cnt_val left (val * b) ret0
  else ret ret0.

(** Lines 33-49: [while divisor * divisor <= val], one unit of fuel for
    each evaluation of the loop condition. *)
Fixpoint while_divisor (fuel : nat) (val cnt_val divisor ret0 : Z) : M Z :=
  match fuel with
  | O => out_of_fuel
  | S fuel' =>
      if divisor * divisor <=? val then
        m <- pymod val divisor ;;
        ret2 <-
          (if m =? 0 then
             ret1 <-
               (if divisor >? 1 then
                  left <- floordiv val divisor ;;
                  add_pair cnt_val left (val * divisor) ret0
                else ret ret0) ;;
             other <- floordiv val divisor ;;
             if negb (other =? divisor) && (other >? 1)
             then add_pair cnt_val divisor (val * other) ret1
             else ret ret1
           else ret ret0) ;;
        while_divisor fuel' val cnt_val (divisor + 1) ret2
      else ret ret0
  end.

(** Lines 20-49: the body of the loop over [unique_vals]. *)
Definition val_step (fuel : nat) (ret0 val : Z) : M Z :=
  cnt_val <- freq_getitem val ;;
  if val >=? 1000000 then
    max_b <- floordiv LIMIT val ;;
    for_each (range 2 (max_b + 1)) (large_step val cnt_val) ret0
  else while_divisor fuel val cnt_val 1 ret0.

(** Lines 9-49 of [solve_optimized], after [freq = Counter(a)]; the
    value returned is the one the script prints. *)
Definition solve_optimized_body (fuel : nat) : M Z :=
  unique_vals <- freq_keys ;;
  its <- freq_items ;;
  ret0 <- for_each its (fun r vc => ret (Graph.degenerate_step r vc)) 0 ;;
  for_each unique_vals (val_step fuel) ret0.

Definition solve_optimized (fuel : nat) (a : list Z) : outcome (Z * counter) :=
  solve_optimized_body fuel (Counter a).

End SolveOptimized.

(** ** [Empirical Testing Script.py] *)
Module EmpiricalTesting.
Import Py Exec.
Local Open Scope exec_scope.

(** [itertools.permutations(pool, 3)]: the triples of elements taken at
    three pairwise distinct positions of [pool], in the lexicographic
    order of the positions. *)
Definition permutations3 (pool : list nat) : list (nat * nat * nat) :=
  let n := length pool in
  flat_map (fun p =>
    flat_map (fun q =>
      if Nat.eqb q p then [] else
      flat_map (fun r =>
        if Nat.eqb r p || Nat.eqb r q then []
        else [(nth p pool 0%nat, nth q pool 0%nat, nth r pool 0%nat)])
        (seq 0 n))
      (seq 0 n))
    (seq 0 n).

(** [list_triplets_bruteforce(a)], lines 6-13; [triples.append] adds at
    the end. *)
Definition list_triplets_bruteforce (a : list Z) : list (nat * nat * nat) :=
  let n := length a in
  fold_left (fun triples ijk =>
    let '(i, j, k) := ijk in
    if item a j * item a j =? item a i * item a k
    then triples ++ [(i, j, k)] else triples)
    (permutations3 (seq 0 n)) [].

(** [sorted(l)] on integers: the ascending rearrangement of [l]. *)
Fixpoint insert_sorted (x : Z) (l : list Z) : list Z :=
  match l with
  | [] => [x]
  | y :: l' => if x <=? y then x :: l else y :: insert_sorted x l'
  end.

Definition sorted (l : list Z) : list Z := fold_right insert_sorted [] l.

(** [left in freq and right in freq], with the short circuit of [and]. *)
Definition both_in (left right : Z) : M bool :=
  has_left <- freq_contains left ;;
  if has_left then freq_contains right else ret false.

(** [mode == "ordered"]. *)
Definition is_ordered (mode : String.string) : bool :=
  String.eqb mode "ordered"%string.

Section FloatSquareRoot.

(** [int(m2 ** 0.5)], line 102, is a floating-point computation, which
    this development does not model: the function that maps [m2] to its
    value is a parameter of [count_triplets_optimized]. *)
Variable int_sqrt_float : Z -> Z.

(** Lines 43-69: the pair [(left, right) = (d, other)]. *)
Definition pair_block (mode : String.string) (mid cnt_mid d other res : Z) : M Z :=
  let left := d in
  let right := other in
  present <- both_in left right ;;
  if present then
    if (left =? mid) && (right =? mid) then ret res
    else if left =? right then
      c1 <- freq_getitem left ;;
      c2 <- freq_getitem left ;;
      let add := cnt_mid * c1 * (c2 - 1) in
      ret (res + add)
    else
      c_left <- freq_getitem left ;;
      c_right <- freq_getitem right ;;
      let add_ordered := cnt_mid * c_left * c_right in
      if is_ordered mode then ret (res + add_ordered)
      else
        c_left' <- freq_getitem left ;;
        c_right' <- freq_getitem right ;;
        ret (res + cnt_mid * c_left' * c_right')
  else ret res.

(** Lines 72-94: the pair [(left2, right2) = (other, d)] in ordered
    mode, whose last branch is [pass]. *)
Definition mirror_block (mode : String.string) (mid cnt_mid d other res : Z) : M Z :=
  if negb (d =? other) then
    if is_ordered mode then
      let left2 := other in
      let right2 := d in
      present <- both_in left2 right2 ;;
      if present then
        if (left2 =? mid) && (right2 =? mid) then ret res
        else if left2 =? right2 then
          c1 <- freq_getitem left2 ;;
          c2 <- freq_getitem left2 ;;
          ret (res + cnt_mid * c1 * (c2 - 1))
        else ret res
      else ret res
    else ret res
  else ret res.

(** Lines 98-118: the pair [(left_s, right_s) = (other, d)] when
    [other > int(m2 ** 0.5)]. *)
Definition symmetric_block (mode : String.string) (mid cnt_mid m2 d other res : Z) : M Z :=
  if negb (d =? other) then
    if other >? int_sqrt_float m2 then
      let left_s := other in
      let right_s := d in
      present <- both_in left_s right_s ;;
      if present then
        if (left_s =? mid) && (right_s =? mid) then ret res
        else if left_s =? right_s then
          c1 <- freq_getitem left_s ;;
          c2 <- freq_getitem left_s ;;
          ret (res + cnt_mid * c1 * (c2 - 1))
        else if is_ordered mode then
          c_left <- freq_getitem left_s ;;
          c_right <- freq_getitem right_s ;;
          ret (res + cnt_mid * c_left * c_right)
        else ret res
      else ret res
    else ret res
  else ret res.

(** Lines 39-120: [while d * d <= m2], one unit of fuel for each
    evaluation of the loop condition. *)
Fixpoint while_d (fuel : nat) (mode : String.string) (mid cnt_mid m2 d res : Z) : M Z :=
  match fuel with
  | O => out_of_fuel
  | S fuel' =>
      if d * d <=? m2 then
        m <- pymod m2 d ;;
        res' <-
          (if m =? 0 then
             other <- floordiv m2 d ;;
             res1 <- pair_block mode mid cnt_mid d other res ;;
             res2 <- mirror_block mode mid cnt_mid d other res1 ;;
             symmetric_block mode mid cnt_mid m2 d other res2
           else ret res) ;;
        while_d fuel' mode mid cnt_mid m2 (d + 1) res'
      else ret res
  end.

(** Lines 33-120: the body of the loop over [unique]. *)
Definition mid_pass (fuel : nat) (mode : String.string) (res mid : Z) : M Z :=
  cnt_mid <- freq_getitem mid ;;
  let m2 := mid * mid in
  while_d fuel mode mid cnt_mid m2 1 res.

(** Lines 20-122 of [count_triplets_optimized], after [freq = Counter(a)]. *)
Definition count_triplets_optimized_body (fuel : nat) (mode : String.string) : M Z :=
  ks <- freq_keys ;;
  let unique := sorted ks in
  its <- freq_items ;;
  res <- for_each its (fun r vc => ret (Graph.degenerate_step r vc)) 0 ;;
  for_each unique (mid_pass fuel mode) res.

Definition count_triplets_optimized (fuel : nat) (a : list Z) (mode : String.string)
  : outcome (Z * counter) :=
  count_triplets_optimized_body fuel mode (Counter a).

End FloatSquareRoot.

End EmpiricalTesting.

(** ** Quantities the statements are written with *)

(** The sum of [f x] for [x] in [l]. *)
Fixpoint sumZ {A : Type} (f : A -> Z) (l : list A) : Z :=
  match l with
  | [] => 0
  | x :: l' => f x + sumZ f l'
  end.

(** The number of positions of [a] that hold [x]. *)
Definition multiplicity (a : list Z) (x : Z) : Z :=
  Z.of_nat (count_occ Z.eq_dec a x).

(** Whether positions [i], [j], [k] of [a] satisfy a[j]^2 = a[i] * a[k]. *)
Definition geometric (a : list Z) (i j k : nat) : bool :=
  Py.item a j * Py.item a j =? Py.item a i * Py.item a k.

(** 1 when the test holds, 0 otherwise: what [cnt += 1] under [if] adds. *)
Definition indicator (b : bool) : Z := if b then 1 else 0.

(** The ratios of [mid]: the integers [b > 1] that divide it. *)
Definition ratios (mid : Z) : list Z :=
  filter (fun b => mid mod b =? 0) (Py.range 2 (mid + 1)).

(** The ordered triples of pairwise distinct positions that all hold a
    value of multiplicity [c]. *)
Definition degenerate_term (c : Z) : Z :=
  if 3 <=? c then c * (c - 1) * (c - 2) else 0.

(** What the candidate pair [left = mid / b], [right = mid * b] adds to
    the count when [right] is checked against the bound [LIMIT]. *)
Definition pair_contribution (a : list Z) (mid b : Z) : Z :=
  if mid * b <=? LIMIT
  then multiplicity a mid * multiplicity a (mid / b) * multiplicity a (mid * b)
  else 0.

(** The same without the check of [right]. *)
Definition pair_product (a : list Z) (mid b : Z) : Z :=
  multiplicity a mid * multiplicity a (mid / b) * multiplicity a (mid * b).

(** The value [optimized_triplets] computes: the degenerate term of each
    distinct value, and for each distinct [mid] and each ratio of [mid]
    the contribution of the pair [mid / b], [mid * b]. *)
Definition ratio_count (a : list Z) : Z :=
  sumZ (fun k => degenerate_term (multiplicity a k)) (Py.keys (Py.Counter a)) +
  sumZ (fun mid => sumZ (fun b => pair_contribution a mid b) (ratios mid))
       (Py.keys (Py.Counter a)).

(** What the pair adds in [solve_optimized]: the branch for
    [val >= 1_000_000] bounds [b] by [LIMIT // val], the other branch
    does not compare [right] with [LIMIT]. *)
Definition solve_contribution (a : list Z) (mid b : Z) : Z :=
  if mid >=? 1000000 then pair_contribution a mid b else pair_product a mid b.

(** The value [solve_optimized] computes. *)
Definition solve_count (a : list Z) : Z :=
  sumZ (fun k => degenerate_term (multiplicity a k)) (Py.keys (Py.Counter a)) +
  sumZ (fun mid => sumZ (fun b => solve_contribution a mid b) (ratios mid))
       (Py.keys (Py.Counter a)).

(** What one turn of the [while] loop of [solve_optimized] adds for the
    divisor [d]: the pair of ratio [d] and the pair of ratio [val // d]. *)
Definition divisor_turn (a : list Z) (val d : Z) : Z :=
  if val mod d =? 0 then
    (if d >? 1 then pair_product a val d else 0) +
    (if negb (val / d =? d) && (val / d >? 1)
     then pair_product a val (val / d) else 0)
  else 0.

(** For a middle value [mid], the pairs [d < mid], [mid^2 / d] of
    outer values with product [mid^2], weighted by their multiplicities. *)
Definition square_pairs (a : list Z) (mid : Z) : Z :=
  sumZ (fun d => if (mid * mid) mod d =? 0
                 then multiplicity a d * multiplicity a (mid * mid / d)
                 else 0)
       (Py.range 1 mid).

(** The ordered count by values: the degenerate term of each distinct
    value, and each pair of [square_pairs] in its two orders. *)
Definition progression_count (a : list Z) : Z :=
  sumZ (fun k => degenerate_term (multiplicity a k)) (Py.keys (Py.Counter a)) +
  2 * sumZ (fun mid => multiplicity a mid * square_pairs a mid)
           (Py.keys (Py.Counter a)).


(** What [solve_optimized] counts and [optimized_triplets] does not: the
    pairs of a middle value below 1_000_000 whose right value exceeds
    [LIMIT]. *)
Definition surplus_beyond_limit (a : list Z) : Z :=
  sumZ (fun mid =>
          sumZ (fun b => if (mid <? 1000000) && (LIMIT <? mid * b)
                         then pair_product a mid b else 0)
               (ratios mid))
       (Py.keys (Py.Counter a)).

(** Every value of the sequence lies in [1, LIMIT]. *)
Definition in_range (a : list Z) : Prop :=
  Forall (fun x => 1 <= x <= LIMIT) a.

Example naive_124 : Graph.naive_triplets [1; 2; 4] = 2.
Proof. reflexivity. Qed.

Example optimized_124 : Graph.optimized_triplets [1; 2; 4] = 1.
Proof. reflexivity. Qed.

Example optimized_222 : Graph.optimized_triplets [2; 2; 2] = 6.
Proof. reflexivity. Qed.

Example unordered_124 : SolveNaive.solve_naive_unordered 3 [1; 2; 4] = 1.
Proof. reflexivity. Qed.

Example exec_124 : Exec.returned (Exec.run_optimized_triplets [1; 2; 4]) = Some 1.
Proof. reflexivity. Qed.

Example solve_124 : Exec.returned (SolveOptimized.solve_optimized 10 [1; 2; 4]) = Some 1.
Proof. reflexivity. Qed.

Example solve_big :
  Exec.returned (SolveOptimized.solve_optimized 200 [1; 31623; 1000014129]) = Some 1.
Proof. vm_compute. reflexivity. Qed.

Example opt_big : Graph.optimized_triplets [1; 31623; 1000014129] = 0.
Proof. vm_compute. reflexivity. Qed.

(** ** Sums *)
Section SumFacts.
Context {A : Type}.
Implicit Types (f g : A -> Z) (l : list A).

Lemma sumZ_app f l l' : sumZ f (l ++ l') = sumZ f l + sumZ f l'.
Proof. induction l as [|x l IH]; simpl; lia. Qed.

Lemma sumZ_ext_in f g l :
  (forall x, In x l -> f x = g x) -> sumZ f l = sumZ g l.
Proof.
  induction l as [|x l IH]; simpl; intros H; [reflexivity|].
  rewrite (H x), IH; auto.
Qed.

Lemma sumZ_le f g l :
  (forall x, In x l -> f x <= g x) -> sumZ f l <= sumZ g l.
Proof.
  induction l as [|x l IH]; simpl; intros H; [lia|].
  specialize (H x (or_introl eq_refl)) as Hx.
  assert (sumZ f l <= sumZ g l) by auto. lia.
Qed.

Lemma sumZ_zero f l : (forall x, In x l -> f x = 0) -> sumZ f l = 0.
Proof.
  induction l as [|x l IH]; simpl; intros H; [reflexivity|].
  rewrite (H x), IH; auto.
Qed.

Lemma sumZ_nonneg f l : (forall x, In x l -> 0 <= f x) -> 0 <= sumZ f l.
Proof.
  induction l as [|x l IH]; simpl; intros H; [lia|].
  specialize (H x (or_introl eq_refl)) as Hx.
  assert (0 <= sumZ f l) by auto. lia.
Qed.

Lemma sumZ_plus f g l :
  sumZ (fun x => f x + g x) l = sumZ f l + sumZ g l.
Proof. induction l as [|x l IH]; simpl; lia. Qed.

Lemma sumZ_scale c f l : sumZ (fun x => c * f x) l = c * sumZ f l.
Proof. induction l as [|x l IH]; simpl; lia. Qed.

Lemma sumZ_const c l : sumZ (fun _ => c) l = Z.of_nat (length l) * c.
Proof. induction l as [|x l IH]; simpl length; simpl sumZ; lia. Qed.

Lemma sumZ_filter (p : A -> bool) f l :
  sumZ (fun x => if p x then f x else 0) l = sumZ f (filter p l).
Proof.
  induction l as [|x l IH]; simpl; [reflexivity|].
  destruct (p x); simpl; lia.
Qed.

Lemma sumZ_perm f l l' : Permutation l l' -> sumZ f l = sumZ f l'.
Proof. induction 1; simpl; lia. Qed.

(** A loop that adds [f x] to its accumulator at each [x] computes a sum. *)
Lemma fold_left_sumZ (step : Z -> A -> Z) f l :
  (forall acc x, In x l -> step acc x = acc + f x) ->
  forall acc, fold_left step l acc = acc + sumZ f l.
Proof.
  induction l as [|x l IH]; simpl; intros H acc; [lia|].
  rewrite H by auto. rewrite IH by auto. lia.
Qed.

End SumFacts.

Lemma sumZ_map {A B : Type} (g : A -> B) (f : B -> Z) (l : list A) :
  sumZ f (map g l) = sumZ (fun x => f (g x)) l.
Proof. induction l as [|x l IH]; simpl; lia. Qed.

Lemma sumZ_swap {A B : Type} (f : A -> B -> Z) (l : list A) (l' : list B) :
  sumZ (fun x => sumZ (fun y => f x y) l') l =
  sumZ (fun y => sumZ (fun x => f x y) l) l'.
Proof.
  induction l as [|x l IH]; simpl.
  - symmetry. apply sumZ_zero. reflexivity.
  - rewrite IH, <- sumZ_plus. reflexivity.
Qed.

(** Leaving one element of a duplicate-free list out of a sum. *)
Lemma sumZ_except (f : nat -> Z) (i : nat) (l : list nat) :
  NoDup l -> In i l ->
  sumZ (fun k => if Nat.eqb k i then 0 else f k) l = sumZ f l - f i.
Proof.
  induction 1 as [|x l Hx Hnd IH]; simpl; [tauto|].
  intros [->|Hi].
  - rewrite Nat.eqb_refl.
    rewrite (sumZ_ext_in _ f).
    + lia.
    + intros k Hk. destruct (Nat.eqb_spec k i); [subst; tauto|reflexivity].
  - destruct (Nat.eqb_spec x i); [subst; tauto|]. rewrite IH by assumption. lia.
Qed.

(** ** The brute-force counters as triple sums *)
Section BruteForce.
Variable a : list Z.

Lemma naive_triplets_sum :
  Graph.naive_triplets a =
  sumZ (fun i => sumZ (fun j =>
    if Nat.eqb j i then 0 else
    sumZ (fun k =>
      if Nat.eqb k i || Nat.eqb k j then 0 else indicator (geometric a i j k))
      (seq 0 (length a))) (seq 0 (length a))) (seq 0 (length a)).
Proof.
  unfold Graph.naive_triplets.
  rewrite fold_left_sumZ with (f := fun i => sumZ (fun j =>
    if Nat.eqb j i then 0 else
    sumZ (fun k =>
      if Nat.eqb k i || Nat.eqb k j then 0 else indicator (geometric a i j k))
      (seq 0 (length a))) (seq 0 (length a))); [lia|].
  intros acc i _. apply fold_left_sumZ. intros acc' j _.
  destruct (Nat.eqb j i); [lia|].
  apply fold_left_sumZ. intros acc'' k _.
  destruct (Nat.eqb k i || Nat.eqb k j); [lia|].
  unfold geometric, indicator.
  destruct (Py.item a j * Py.item a j =? Py.item a i * Py.item a k); lia.
Qed.

Lemma solve_naive_unordered_sum (n : nat) :
  SolveNaive.solve_naive_unordered n a =
  sumZ (fun j => sumZ (fun i =>
    if Nat.eqb i j then 0 else
    sumZ (fun k => if Nat.eqb k j then 0 else indicator (geometric a i j k))
      (seq (i + 1) (n - (i + 1)))) (seq 0 n)) (seq 0 n).
Proof.
  unfold SolveNaive.solve_naive_unordered.
  rewrite fold_left_sumZ with (f := fun j => sumZ (fun i =>
    if Nat.eqb i j then 0 else
    sumZ (fun k => if Nat.eqb k j then 0 else indicator (geometric a i j k))
      (seq (i + 1) (n - (i + 1)))) (seq 0 n)); [lia|].
  intros acc j _. apply fold_left_sumZ. intros acc' i _.
  destruct (Nat.eqb i j); [lia|].
  apply fold_left_sumZ. intros acc'' k _.
  destruct (Nat.eqb k j); [lia|].
  unfold geometric, indicator.
  destruct (Py.item a j * Py.item a j =? Py.item a i * Py.item a k); lia.
Qed.

Lemma geometric_sym i j k : geometric a i j k = geometric a k j i.
Proof. unfold geometric. now rewrite (Z.mul_comm (Py.item a i)). Qed.

End BruteForce.

(** A symmetric weight summed over the ordered pairs of distinct indices
    below [n] is twice its sum over the pairs [i < k]. *)
Lemma sum_symmetric_pairs (h : nat -> nat -> Z) (n : nat) :
  (forall i k, h i k = h k i) ->
  sumZ (fun i => sumZ (fun k => if Nat.eqb k i then 0 else h i k) (seq 0 n))
       (seq 0 n) =
  2 * sumZ (fun i => sumZ (fun k => h i k) (seq (i + 1) (n - (i + 1)))) (seq 0 n).
Proof.
  intros Hsym. induction n as [|n IH]; [reflexivity|].
  rewrite seq_S, Nat.add_0_l, !sumZ_app. cbn [sumZ].
  rewrite sumZ_app. cbn [sumZ]. rewrite Nat.eqb_refl.
  replace (S n - (n + 1))%nat with 0%nat by lia. cbn [seq sumZ].
  rewrite (sumZ_ext_in
    (fun i => sumZ (fun k => if Nat.eqb k i then 0 else h i k) (seq 0 n ++ [n]))
    (fun i => sumZ (fun k => if Nat.eqb k i then 0 else h i k) (seq 0 n) + h i n)).
  2:{ intros i Hi. apply in_seq in Hi. rewrite sumZ_app. cbn [sumZ].
      destruct (Nat.eqb_spec n i); lia. }
  rewrite (sumZ_ext_in
    (fun i => sumZ (fun k => h i k) (seq (i + 1) (S n - (i + 1))))
    (fun i => sumZ (fun k => h i k) (seq (i + 1) (n - (i + 1))) + h i n)).
  2:{ intros i Hi. apply in_seq in Hi.
      replace (S n - (i + 1))%nat with (S (n - (i + 1))) by lia.
      rewrite seq_S, sumZ_app. cbn [sumZ].
      replace (i + 1 + (n - (i + 1)))%nat with n by lia. lia. }
  rewrite !sumZ_plus, IH.
  rewrite (sumZ_ext_in (fun k => if Nat.eqb k n then 0 else h n k)
                       (fun i => h i n)).
  2:{ intros k Hk. apply in_seq in Hk.
      destruct (Nat.eqb_spec k n); [lia|apply Hsym]. }
  lia.
Qed.

(** C2. For every integer sequence, the ordered brute-force count of
    [naive_triplets] is exactly twice the count of the loops of
    [solve_naive_unordered], which let [k] start after [i]. *)
Theorem ordered_is_twice_unordered (a : list Z) :
  Graph.naive_triplets a = 2 * SolveNaive.solve_naive_unordered (length a) a.
Proof.
  rewrite naive_triplets_sum, solve_naive_unordered_sum, sumZ_swap.
  rewrite <- sumZ_scale. apply sumZ_ext_in. intros j _.
  set (h := fun i k : nat =>
    if Nat.eqb i j || Nat.eqb k j then 0 else indicator (geometric a i j k)).
  rewrite (sumZ_ext_in _
    (fun i => sumZ (fun k => if Nat.eqb k i then 0 else h i k)
                   (seq 0 (length a)))).
  2:{ intros i _. unfold h. rewrite (Nat.eqb_sym j i).
      destruct (Nat.eqb i j); simpl.
      - symmetry. apply sumZ_zero. intros k _. now destruct (Nat.eqb k i).
      - apply sumZ_ext_in. intros k _. now destruct (Nat.eqb k i). }
  rewrite sum_symmetric_pairs.
  2:{ intros i k. unfold h. rewrite (orb_comm (Nat.eqb i j)).
      now rewrite geometric_sym. }
  f_equal. apply sumZ_ext_in. intros i _. unfold h.
  destruct (Nat.eqb i j); simpl.
  - apply sumZ_zero. reflexivity.
  - reflexivity.
Qed.

(** ** The Counter *)
Section CounterFacts.
Import Py.

Lemma multiplicity_nonneg a x : 0 <= multiplicity a x.
Proof. unfold multiplicity. lia. Qed.

Lemma multiplicity_le_length a x : multiplicity a x <= Z.of_nat (length a).
Proof. unfold multiplicity. pose proof (count_occ_bound Z.eq_dec x a). lia. Qed.

Lemma multiplicity_pos_iff a x : 0 < multiplicity a x <-> In x a.
Proof.
  unfold multiplicity. rewrite (count_occ_In Z.eq_dec). lia.
Qed.

Lemma multiplicity_snoc a v x :
  multiplicity (a ++ [v]) x = multiplicity a x + (if v =? x then 1 else 0).
Proof.
  unfold multiplicity. rewrite count_occ_app. simpl.
  destruct (Z.eq_dec v x) as [->|Hne].
  - rewrite Z.eqb_refl. lia.
  - destruct (Z.eqb_spec v x); [contradiction|lia].
Qed.

Lemma getitem_counter_incr x freq y :
  getitem (counter_incr x freq) y = getitem freq y + (if x =? y then 1 else 0).
Proof.
  unfold getitem. induction freq as [|[k c] rest IH]; simpl.
  - destruct (x =? y); lia.
  - destruct (Z.eqb_spec k x) as [->|Hkx]; simpl.
    + destruct (x =? y); lia.
    + destruct (Z.eqb_spec k y) as [->|Hky]; [|exact IH].
      destruct (Z.eqb_spec x y); [congruence|lia].
Qed.

Lemma keys_counter_incr x freq :
  keys (counter_incr x freq) =
  if existsb (Z.eqb x) (keys freq) then keys freq else keys freq ++ [x].
Proof.
  unfold keys. induction freq as [|[k c] rest IH]; simpl; [reflexivity|].
  rewrite (Z.eqb_sym x k).
  destruct (k =? x); simpl; [reflexivity|].
  rewrite IH. now destruct (existsb (Z.eqb x) (map fst rest)).
Qed.

Lemma existsb_eqb_In x l : existsb (Z.eqb x) l = true <-> In x l.
Proof.
  rewrite existsb_exists. split.
  - intros (y & Hy & Heq). apply Z.eqb_eq in Heq. now subst.
  - intros Hx. exists x. split; [assumption|apply Z.eqb_refl].
Qed.

Lemma keys_counter_incr_present x freq :
  In x (keys freq) -> keys (counter_incr x freq) = keys freq.
Proof.
  intros Hx. rewrite keys_counter_incr.
  apply existsb_eqb_In in Hx. now rewrite Hx.
Qed.

Lemma Counter_snoc a v : Counter (a ++ [v]) = counter_incr v (Counter a).
Proof. unfold Counter. now rewrite fold_left_app. Qed.

(** Induction on a sequence from its end, the direction in which
    [Counter] consumes it. *)
Lemma getitem_Counter a x : getitem (Counter a) x = multiplicity a x.
Proof.
  induction a as [|v a IH] using rev_ind; [reflexivity|].
  rewrite Counter_snoc, getitem_counter_incr, multiplicity_snoc, IH.
  reflexivity.
Qed.

Lemma keys_Counter_In a x : In x (keys (Counter a)) <-> In x a.
Proof.
  revert x. induction a as [|v a IH] using rev_ind; intros x; [reflexivity|].
  rewrite Counter_snoc, keys_counter_incr, in_app_iff. simpl.
  destruct (existsb (Z.eqb v) (keys (Counter a))) eqn:E.
  - apply existsb_eqb_In, IH in E. rewrite IH.
    split; [tauto|]. intros [H|[<-|[]]]; assumption.
  - rewrite in_app_iff. simpl. rewrite IH. reflexivity.
Qed.

Lemma keys_Counter_NoDup a : NoDup (keys (Counter a)).
Proof.
  induction a as [|v a IH] using rev_ind; [constructor|].
  rewrite Counter_snoc, keys_counter_incr.
  destruct (existsb (Z.eqb v) (keys (Counter a))) eqn:E; [assumption|].
  apply NoDup_app; [assumption|repeat constructor; intros []|].
  intros k Hk [<-|[]]. apply existsb_eqb_In in Hk. congruence.
Qed.

Lemma keys_Counter_snoc_present a v :
  In v a -> keys (Counter (a ++ [v])) = keys (Counter a).
Proof.
  intros Hv. rewrite Counter_snoc. apply keys_counter_incr_present.
  now rewrite keys_Counter_In.
Qed.

(** An entry of a Counter with distinct keys is what a lookup finds. *)
Lemma getitem_entry freq k c :
  NoDup (keys freq) -> In (k, c) freq -> getitem freq k = c.
Proof.
  unfold getitem, keys.
  induction freq as [|[k' c'] rest IH]; simpl; [tauto|].
  intros Hnd [Heq|Hin].
  - inversion Heq; subst. now rewrite Z.eqb_refl.
  - inversion Hnd as [|? ? Hnotin Hnd']; subst.
    destruct (Z.eqb_spec k' k) as [->|Hne]; [|auto].
    exfalso. apply Hnotin. apply (in_map fst) in Hin. exact Hin.
Qed.

Lemma Counter_entry a k c : In (k, c) (Counter a) -> c = multiplicity a k.
Proof.
  intros Hin. rewrite <- getitem_Counter. symmetry.
  apply getitem_entry; [apply keys_Counter_NoDup|assumption].
Qed.

Lemma contains_keys freq x : contains freq x = true <-> In x (keys freq).
Proof.
  unfold contains, keys. rewrite existsb_exists, in_map_iff. split.
  - intros (kc & Hin & Heq). apply Z.eqb_eq in Heq. eauto.
  - intros (kc & Heq & Hin). exists kc. split; [assumption|].
    now apply Z.eqb_eq.
Qed.

Lemma contains_Counter a x : contains (Counter a) x = truthy (multiplicity a x).
Proof.
  unfold truthy.
  destruct (contains (Counter a) x) eqn:E.
  - rewrite contains_keys, keys_Counter_In, <- multiplicity_pos_iff in E.
    destruct (Z.eqb_spec (multiplicity a x) 0); [lia|reflexivity].
  - destruct (Z.eqb_spec (multiplicity a x) 0) as [|Hne]; [reflexivity|].
    pose proof (multiplicity_nonneg a x).
    assert (Hin : In x (keys (Counter a))).
    { rewrite keys_Counter_In, <- multiplicity_pos_iff. lia. }
    rewrite <- contains_keys in Hin. congruence.
Qed.

(** The sum of the multiplicities a Counter stores. *)
Lemma sum_counts_counter_incr x freq :
  sumZ snd (counter_incr x freq) = sumZ snd freq + 1.
Proof.
  induction freq as [|[k c] rest IH]; simpl; [lia|].
  destruct (k =? x); simpl; lia.
Qed.

Lemma sum_counts_Counter a : sumZ snd (items (Counter a)) = Z.of_nat (length a).
Proof.
  unfold items. induction a as [|v a IH] using rev_ind; [reflexivity|].
  rewrite Counter_snoc, sum_counts_counter_incr, IH, length_app. simpl. lia.
Qed.

Lemma counts_positive_Counter a k c : In (k, c) (items (Counter a)) -> 1 <= c.
Proof.
  unfold items. intros Hin.
  assert (Hk : In k (keys (Counter a))) by (apply (in_map fst) in Hin; exact Hin).
  apply Counter_entry in Hin. subst c.
  rewrite keys_Counter_In, <- multiplicity_pos_iff in Hk. lia.
Qed.

End CounterFacts.

(** ** [optimized_triplets] as a sum over the distinct values *)
Section OptimizedSum.
Import Py.

Lemma ratio_step_acc freq mid cnt_mid result b :
  Graph.ratio_step freq mid cnt_mid result b =
  result + Graph.ratio_step freq mid cnt_mid 0 b.
Proof.
  unfold Graph.ratio_step.
  destruct (b <=? 1); [lia|].
  destruct (mid * b >? LIMIT); [lia|].
  destruct (truthy _ && truthy _); lia.
Qed.

Lemma truthy_product x y c :
  (if truthy x && truthy y then c * x * y else 0) = c * x * y.
Proof.
  unfold truthy.
  destruct (Z.eqb_spec x 0) as [->|]; simpl; [lia|].
  destruct (Z.eqb_spec y 0) as [->|]; simpl; lia.
Qed.

Lemma ratio_step_Counter a mid b :
  Graph.ratio_step (Counter a) mid (multiplicity a mid) 0 b =
  if b <=? 1 then 0 else pair_contribution a mid b.
Proof.
  unfold Graph.ratio_step, pair_contribution.
  destruct (b <=? 1); [reflexivity|].
  rewrite Z.gtb_ltb, Z.ltb_antisym.
  destruct (mid * b <=? LIMIT); simpl; [|reflexivity].
  change (get (Counter a) ?x 0) with (getitem (Counter a) x).
  rewrite !getitem_Counter.
  rewrite <- (truthy_product (multiplicity a (mid / b))
                (multiplicity a (mid * b)) (multiplicity a mid)).
  destruct (truthy _ && truthy _); reflexivity.
Qed.

Lemma mid_step_sum a result mid :
  Graph.mid_step (Counter a) result mid =
  result +
  (if mid <=? 1 then 0
   else sumZ (fun b => if b <=? 1 then 0 else pair_contribution a mid b)
             (Graph.b_set_of mid)).
Proof.
  unfold Graph.mid_step. destruct (mid <=? 1); [lia|].
  apply fold_left_sumZ. intros acc b _.
  rewrite ratio_step_acc, getitem_Counter, ratio_step_Counter. reflexivity.
Qed.

Lemma degenerate_loop_sum a :
  fold_left Graph.degenerate_step (items (Counter a)) 0 =
  sumZ (fun k => degenerate_term (multiplicity a k)) (keys (Counter a)).
Proof.
  unfold keys, items. rewrite sumZ_map.
  rewrite fold_left_sumZ
    with (f := fun kc => degenerate_term (multiplicity a (fst kc))); [lia|].
  intros acc [k c] Hin. apply Counter_entry in Hin. subst c.
  unfold Graph.degenerate_step, degenerate_term. simpl.
  destruct (3 <=? multiplicity a k); lia.
Qed.

Lemma optimized_triplets_sum a :
  Graph.optimized_triplets a =
  sumZ (fun k => degenerate_term (multiplicity a k)) (keys (Counter a)) +
  sumZ (fun mid =>
          if mid <=? 1 then 0
          else sumZ (fun b => if b <=? 1 then 0 else pair_contribution a mid b)
                    (Graph.b_set_of mid))
       (keys (Counter a)).
Proof.
  unfold Graph.optimized_triplets. rewrite degenerate_loop_sum.
  apply fold_left_sumZ. intros acc mid _. apply mid_step_sum.
Qed.

End OptimizedSum.

(** ** Fewer than three elements *)

Lemma three_values_length (a : list Z) (x y z : Z) :
  x < y -> y < z ->
  0 < multiplicity a x -> 0 < multiplicity a y -> 0 < multiplicity a z ->
  (3 <= length a)%nat.
Proof.
  rewrite !multiplicity_pos_iff.
  destruct a as [|p [|q [|r a]]]; simpl; intros; try lia; intuition lia.
Qed.

Lemma pair_contribution_short (a : list Z) (mid b : Z) :
  (length a < 3)%nat -> 1 < mid -> 1 < b -> pair_contribution a mid b = 0.
Proof.
  intros Hlen Hmid Hb. unfold pair_contribution.
  destruct (mid * b <=? LIMIT); [|reflexivity].
  pose proof (multiplicity_nonneg a mid).
  pose proof (multiplicity_nonneg a (mid / b)).
  pose proof (multiplicity_nonneg a (mid * b)).
  assert (mid / b < mid) by (apply Z.div_lt; lia).
  assert (mid < mid * b) by nia.
  destruct (Z.eq_dec (multiplicity a mid) 0) as [->|]; [lia|].
  destruct (Z.eq_dec (multiplicity a (mid / b)) 0) as [->|]; [lia|].
  destruct (Z.eq_dec (multiplicity a (mid * b)) 0) as [->|]; [lia|].
  pose proof (three_values_length a (mid / b) mid (mid * b)). lia.
Qed.

(** C9. A sequence of fewer than three elements has ordered count 0,
    for the brute-force counter and for the optimized counter. *)
Theorem short_sequence_count_zero (a : list Z) :
  (length a < 3)%nat ->
  Graph.naive_triplets a = 0 /\ Graph.optimized_triplets a = 0.
Proof.
  intros Hlen. split.
  - destruct a as [|x [|y [|z a]]]; simpl in Hlen; try lia; reflexivity.
  - rewrite optimized_triplets_sum.
    rewrite !sumZ_zero; [reflexivity| |].
    + intros mid _. destruct (Z.leb_spec mid 1); [reflexivity|].
      apply sumZ_zero. intros b _.
      destruct (Z.leb_spec b 1); [reflexivity|].
      now apply pair_contribution_short.
    + intros k _. unfold degenerate_term.
      pose proof (multiplicity_le_length a k).
      destruct (Z.leb_spec 3 (multiplicity a k)); [lia|reflexivity].
Qed.

Lemma short_sequence_count_zero_witness :
  (length [5; 25] < 3)%nat /\
  Graph.naive_triplets [5; 25] = 0 /\ Graph.optimized_triplets [5; 25] = 0.
Proof.
  split; [simpl; lia|]. apply (short_sequence_count_zero [5; 25]). simpl; lia.
Defined.

(** ** Sequences of one repeated value *)
Section AllEqual.
Import Py.
Variable v : Z.

Lemma item_repeat (c i : nat) : (i < c)%nat -> item (repeat v c) i = v.
Proof.
  unfold item. revert i. induction c as [|c IH]; intros [|i] Hi; simpl;
    try lia; auto. apply IH. lia.
Qed.

Lemma naive_triplets_repeat (c : nat) :
  Graph.naive_triplets (repeat v c) =
  Z.of_nat c * (Z.of_nat c - 1) * (Z.of_nat c - 2).
Proof.
  rewrite naive_triplets_sum, repeat_length.
  rewrite (sumZ_ext_in _ (fun _ => (Z.of_nat c - 1) * (Z.of_nat c - 2))).
  { rewrite sumZ_const, length_seq. lia. }
  intros i Hi.
  rewrite (sumZ_ext_in _
    (fun j => if Nat.eqb j i then 0 else Z.of_nat c - 2)).
  { rewrite sumZ_except by (auto using seq_NoDup).
    rewrite sumZ_const, length_seq. lia. }
  intros j Hj. destruct (Nat.eqb_spec j i) as [|Hji]; [reflexivity|].
  rewrite (sumZ_ext_in _
    (fun k => if Nat.eqb k i then 0 else if Nat.eqb k j then 0 else 1)).
  { rewrite sumZ_except by (auto using seq_NoDup).
    rewrite sumZ_except by (auto using seq_NoDup).
    rewrite sumZ_const, length_seq.
    destruct (Nat.eqb_spec i j); [congruence|lia]. }
  intros k Hk. apply in_seq in Hi, Hj, Hk.
  destruct (Nat.eqb k i); simpl; [reflexivity|].
  destruct (Nat.eqb k j); [reflexivity|].
  unfold geometric. rewrite !item_repeat by lia.
  now rewrite Z.eqb_refl.
Qed.

Lemma Counter_repeat_from (m : Z) (c : nat) :
  fold_left (fun freq x => counter_incr x freq) (repeat v c) [(v, m)] =
  [(v, m + Z.of_nat c)].
Proof.
  revert m. induction c as [|c IH]; intros m; simpl repeat; cbn [fold_left].
  - now rewrite Z.add_0_r.
  - cbn [counter_incr]. rewrite Z.eqb_refl, IH. do 2 f_equal. lia.
Qed.

Lemma Counter_repeat (c : nat) :
  Counter (repeat v (S c)) = [(v, Z.of_nat (S c))].
Proof.
  unfold Counter. simpl repeat. cbn [fold_left counter_incr].
  rewrite Counter_repeat_from. do 2 f_equal. lia.
Qed.

(** With a single key [v] no ratio [b > 1] finds [v // b] in the index. *)
Lemma ratio_step_single (m cnt_mid result b : Z) :
  1 <= v -> Graph.ratio_step [(v, m)] v cnt_mid result b = result.
Proof.
  intros Hv. unfold Graph.ratio_step.
  destruct (Z.leb_spec b 1); [reflexivity|].
  destruct (v * b >? LIMIT); [reflexivity|].
  assert (v / b < v) by (apply Z.div_lt; lia).
  cbn [get]. destruct (Z.eqb_spec v (v / b)); [lia|]. reflexivity.
Qed.

Lemma fold_left_fixed {A : Type} (step : Z -> A -> Z) (l : list A) (acc : Z) :
  (forall r x, step r x = r) -> fold_left step l acc = acc.
Proof. intros H. induction l as [|x l IH]; simpl; [reflexivity|]. now rewrite H. Qed.

Lemma optimized_triplets_repeat (c : nat) :
  1 <= v ->
  Graph.optimized_triplets (repeat v c) = degenerate_term (Z.of_nat c).
Proof.
  intros Hv. destruct c as [|c]; [reflexivity|].
  unfold Graph.optimized_triplets. rewrite Counter_repeat.
  cbn [keys items map fst fold_left].
  unfold Graph.mid_step. destruct (v <=? 1).
  - unfold Graph.degenerate_step, degenerate_term.
    destruct (3 <=? Z.of_nat (S c)); lia.
  - rewrite fold_left_fixed by (intros; now apply ratio_step_single).
    unfold Graph.degenerate_step, degenerate_term.
    destruct (3 <=? Z.of_nat (S c)); lia.
Qed.

End AllEqual.

(** C4. The value [v >= 1] repeated [c] times has ordered count
    [c * (c - 1) * (c - 2)] when [c >= 3] and 0 when [c < 3], for the
    brute-force and for the optimized counter; [[2, 2, 2]] gives 6. *)
Theorem all_equal_count (v : Z) (c : nat) :
  1 <= v ->
  let n := Z.of_nat c in
  (3 <= n ->
   Graph.naive_triplets (repeat v c) = n * (n - 1) * (n - 2) /\
   Graph.optimized_triplets (repeat v c) = n * (n - 1) * (n - 2)) /\
  (n < 3 ->
   Graph.naive_triplets (repeat v c) = 0 /\
   Graph.optimized_triplets (repeat v c) = 0) /\
  Graph.naive_triplets [2; 2; 2] = 6 /\
  Graph.optimized_triplets [2; 2; 2] = 6.
Proof.
  intros Hv n.
  rewrite naive_triplets_repeat, optimized_triplets_repeat by assumption.
  unfold degenerate_term. fold n.
  repeat split; try reflexivity.
  - destruct (Z.leb_spec 3 n); lia.
  - assert (n = 0 \/ n = 1 \/ n = 2) as [->|[->| ->]] by lia; reflexivity.
  - destruct (Z.leb_spec 3 n); lia.
Qed.

Lemma all_equal_count_witness :
  1 <= 7 /\
  Graph.naive_triplets (repeat 7 4) = 24 /\
  Graph.optimized_triplets (repeat 7 4) = 24.
Proof.
  assert (H : 1 <= 7) by lia.
  split; [exact H|].
  destruct (all_equal_count 7 4 H) as [Hge _].
  apply Hge. simpl. lia.
Defined.

(** ** Appending a value that is already present *)
Section Append.
Import Py.
Variables (a : list Z) (v : Z).

Lemma sumZ_grow {A : Type} (f g : A -> Z) (l l' : list A) :
  (forall x, In x l -> f x <= g x) ->
  (forall x, In x l' -> 0 <= g x) ->
  sumZ f l <= sumZ g (l ++ l').
Proof.
  intros Hle Hpos. rewrite sumZ_app.
  pose proof (sumZ_le f g l Hle). pose proof (sumZ_nonneg g l' Hpos). lia.
Qed.

Lemma indicator_nonneg b : 0 <= indicator b.
Proof. destruct b; simpl; lia. Qed.

Lemma geometric_snoc i j k :
  (i < length a)%nat -> (j < length a)%nat -> (k < length a)%nat ->
  geometric (a ++ [v]) i j k = geometric a i j k.
Proof.
  intros Hi Hj Hk. unfold geometric, item. now rewrite !app_nth1 by assumption.
Qed.

Lemma naive_triplets_snoc : Graph.naive_triplets a <= Graph.naive_triplets (a ++ [v]).
Proof.
  rewrite !naive_triplets_sum, length_app. simpl length.
  rewrite Nat.add_1_r, seq_S, Nat.add_0_l.
  apply sumZ_grow.
  - intros i Hi. apply sumZ_grow.
    + intros j Hj. destruct (Nat.eqb j i); [lia|].
      apply sumZ_grow.
      * intros k Hk. destruct (Nat.eqb k i || Nat.eqb k j); [lia|].
        apply in_seq in Hi, Hj, Hk. rewrite geometric_snoc by lia. lia.
      * intros k _. destruct (Nat.eqb k i || Nat.eqb k j);
          [lia|apply indicator_nonneg].
    + intros j _. destruct (Nat.eqb j i); [lia|].
      apply sumZ_nonneg. intros k _.
      destruct (Nat.eqb k i || Nat.eqb k j); [lia|apply indicator_nonneg].
  - intros i _. apply sumZ_nonneg. intros j _.
    destruct (Nat.eqb j i); [lia|].
    apply sumZ_nonneg. intros k _.
    destruct (Nat.eqb k i || Nat.eqb k j); [lia|apply indicator_nonneg].
Qed.

Lemma multiplicity_snoc_le x : multiplicity a x <= multiplicity (a ++ [v]) x.
Proof. rewrite multiplicity_snoc. destruct (v =? x); lia. Qed.

Lemma degenerate_term_mono x y :
  0 <= x -> x <= y -> degenerate_term x <= degenerate_term y.
Proof.
  intros Hx Hxy. unfold degenerate_term.
  destruct (Z.leb_spec 3 x), (Z.leb_spec 3 y); try lia.
  - assert (x * (x - 1) <= y * (y - 1)) by (apply Z.mul_le_mono_nonneg; lia).
    apply Z.mul_le_mono_nonneg; nia.
  - nia.
Qed.

Lemma product_mono x y z x' y' z' :
  0 <= x <= x' -> 0 <= y <= y' -> 0 <= z <= z' -> x * y * z <= x' * y' * z'.
Proof.
  intros Hx Hy Hz.
  assert (x * y <= x' * y') by (apply Z.mul_le_mono_nonneg; lia).
  apply Z.mul_le_mono_nonneg; nia.
Qed.

Lemma pair_contribution_snoc mid b :
  pair_contribution a mid b <= pair_contribution (a ++ [v]) mid b.
Proof.
  unfold pair_contribution. destruct (mid * b <=? LIMIT); [|lia].
  apply product_mono; split;
    auto using multiplicity_nonneg, multiplicity_snoc_le.
Qed.

Lemma optimized_triplets_snoc :
  In v a -> Graph.optimized_triplets a <= Graph.optimized_triplets (a ++ [v]).
Proof.
  intros Hv. rewrite !optimized_triplets_sum, keys_Counter_snoc_present by assumption.
  apply Z.add_le_mono; apply sumZ_le.
  - intros k _. apply degenerate_term_mono;
      auto using multiplicity_nonneg, multiplicity_snoc_le.
  - intros mid _. destruct (mid <=? 1); [lia|].
    apply sumZ_le. intros b _. destruct (b <=? 1); [lia|].
    apply pair_contribution_snoc.
Qed.

End Append.

(** C5. Appending to a sequence a value that already occurs in it never
    decreases the ordered count, for the brute-force counter and for the
    optimized counter. *)
Theorem append_existing_value_monotone (a : list Z) (v : Z) :
  In v a ->
  Graph.naive_triplets a <= Graph.naive_triplets (a ++ [v]) /\
  Graph.optimized_triplets a <= Graph.optimized_triplets (a ++ [v]).
Proof.
  intros Hv. split.
  - apply naive_triplets_snoc.
  - now apply optimized_triplets_snoc.
Qed.

Lemma append_existing_value_monotone_witness :
  In 2 [1; 2; 4] /\
  Graph.naive_triplets [1; 2; 4] <= Graph.naive_triplets ([1; 2; 4] ++ [2]) /\
  Graph.optimized_triplets [1; 2; 4] <= Graph.optimized_triplets ([1; 2; 4] ++ [2]).
Proof.
  assert (H : In 2 [1; 2; 4]) by (simpl; auto).
  split; [exact H|]. exact (append_existing_value_monotone [1; 2; 4] 2 H).
Defined.

(** ** Divisors and ratios *)
Section Divisors.
Import Py.

Lemma range_from_In n lo x : In x (range_from lo n) <-> lo <= x < lo + Z.of_nat n.
Proof.
  revert lo. induction n as [|n IH]; intros lo; cbn [range_from In].
  - lia.
  - rewrite IH. lia.
Qed.

Lemma range_In lo hi x : In x (range lo hi) <-> lo <= x < hi.
Proof. unfold range. rewrite range_from_In. lia. Qed.

Lemma range_NoDup lo hi : NoDup (range lo hi).
Proof.
  unfold range. generalize (Z.to_nat (hi - lo)) as n. intros n. revert lo.
  induction n as [|n IH]; intros lo; cbn [range_from]; constructor.
  - rewrite range_from_In. lia.
  - apply IH.
Qed.

Lemma range_nil lo hi : hi <= lo -> range lo hi = [].
Proof. intros H. unfold range. now replace (Z.to_nat (hi - lo)) with 0%nat by lia. Qed.

Lemma range_cons lo hi : lo < hi -> range lo hi = lo :: range (lo + 1) hi.
Proof.
  intros H. unfold range.
  now replace (Z.to_nat (hi - lo)) with (S (Z.to_nat (hi - (lo + 1)))) by lia.
Qed.

Lemma set_add_In x s y : In y (set_add x s) <-> y = x \/ In y s.
Proof.
  unfold set_add. destruct (existsb (Z.eqb x) s) eqn:E.
  - apply existsb_eqb_In in E. split; [tauto|]. intros [->|H]; assumption.
  - rewrite in_app_iff. simpl. intuition congruence.
Qed.

Lemma set_add_NoDup x s : NoDup s -> NoDup (set_add x s).
Proof.
  intros Hs. unfold set_add. destruct (existsb (Z.eqb x) s) eqn:E; [assumption|].
  apply NoDup_app; [assumption|repeat constructor; intros []|].
  intros y Hy [<-|[]]. apply existsb_eqb_In in Hy. congruence.
Qed.

Lemma sqrt_bounds m :
  0 <= m -> 0 <= Z.sqrt m /\ Z.sqrt m * Z.sqrt m <= m < (Z.sqrt m + 1) * (Z.sqrt m + 1).
Proof.
  intros Hm. split; [apply Z.sqrt_nonneg|].
  pose proof (Z.sqrt_spec m Hm) as H. cbv zeta in H. lia.
Qed.

(** A divisor [d >= 1] of [m >= 1] and its cofactor [m / d]. *)
Lemma cofactor m d :
  1 <= m -> 1 <= d -> m mod d = 0 ->
  m = d * (m / d) /\ 1 <= m / d <= m /\ d <= m /\
  m mod (m / d) = 0 /\ m / (m / d) = d.
Proof.
  intros Hm Hd Hmod.
  assert (Heq : m = d * (m / d)) by (apply Z.div_exact; lia).
  set (q := m / d) in *.
  assert (Hq : 1 <= q) by nia.
  repeat split; try assumption; try nia.
  - rewrite Heq. apply Z.mod_mul. lia.
  - rewrite Heq. apply Z.div_mul. lia.
Qed.

(** Every divisor of [m] is at most [isqrt(m)] or the cofactor of one. *)
Lemma divisor_below_or_above m b :
  1 <= m -> 1 <= b -> m mod b = 0 -> Z.sqrt m < b ->
  1 <= m / b <= Z.sqrt m /\ m mod (m / b) = 0 /\ m / (m / b) = b.
Proof.
  intros Hm Hb Hmod Hlt.
  destruct (cofactor m b Hm Hb Hmod) as (Heq & Hq & _ & Hmodq & Hdiv).
  destruct (sqrt_bounds m) as (Hr & Hlo & Hhi); [lia|].
  repeat split; try assumption; try lia.
  destruct (Z_le_gt_dec (m / b) (Z.sqrt m)); [assumption|]. nia.
Qed.

Lemma ratios_In mid b : In b (ratios mid) <-> 1 < b <= mid /\ mid mod b = 0.
Proof.
  unfold ratios. rewrite filter_In, range_In, Z.eqb_eq. lia.
Qed.

Lemma ratios_NoDup mid : NoDup (ratios mid).
Proof. apply NoDup_filter, range_NoDup. Qed.

Lemma ratios_nil mid : mid <= 1 -> ratios mid = [].
Proof. intros H. unfold ratios. rewrite range_nil by lia. reflexivity. Qed.

(** For a positive [mid] the ratios are exactly the divisors above 1. *)
Lemma ratios_divisors mid b :
  1 <= mid -> (In b (ratios mid) <-> 1 < b /\ (b | mid)).
Proof.
  intros Hmid. rewrite ratios_In. split.
  - intros [Hb Hmod]. split; [lia|]. apply Z.mod_divide; lia.
  - intros [Hb Hdiv]. apply Z.mod_divide in Hdiv; [|lia].
    destruct (cofactor mid b) as (_ & _ & Hle & _); lia.
Qed.

(** The set built by lines 78-83. *)
Lemma collect_fold_In mid l s y :
  In y (fold_left (fun b_set d =>
          if mid mod d =? 0 then set_add (mid / d) (set_add d b_set) else b_set)
          l s) <->
  In y s \/ exists d, In d l /\ mid mod d = 0 /\ (y = d \/ y = mid / d).
Proof.
  revert s. induction l as [|d l IH]; intros s; cbn [fold_left].
  - split; [tauto|]. intros [H|(d & [] & _)]. assumption.
  - rewrite IH. destruct (Z.eqb_spec (mid mod d) 0) as [Hmod|Hmod].
    + rewrite !set_add_In. split.
      * intros [[->|[->|H]]|(d' & Hd' & H)]; eauto 8 using in_eq, in_cons.
      * intros [H|(d' & [->|Hd'] & H1 & H2)]; [tauto|tauto|eauto 8].
    + split.
      * intros [H|(d' & Hd' & H)]; eauto 8 using in_cons.
      * intros [H|(d' & [->|Hd'] & H1 & H2)]; [tauto|contradiction|eauto 8].
Qed.

Lemma collect_fold_NoDup mid l s :
  NoDup s ->
  NoDup (fold_left (fun b_set d =>
           if mid mod d =? 0 then set_add (mid / d) (set_add d b_set) else b_set)
           l s).
Proof.
  revert s. induction l as [|d l IH]; intros s Hs; cbn [fold_left]; [assumption|].
  apply IH. destruct (mid mod d =? 0); auto using set_add_NoDup.
Qed.

Lemma b_set_of_NoDup mid : NoDup (Graph.b_set_of mid).
Proof. apply collect_fold_NoDup. constructor. Qed.

Lemma b_set_of_In mid b :
  1 <= mid -> (In b (Graph.b_set_of mid) <-> 1 <= b <= mid /\ mid mod b = 0).
Proof.
  intros Hmid. unfold Graph.b_set_of. rewrite collect_fold_In. split.
  - intros [[]|(d & Hd & Hmod & Hb)]. apply range_In in Hd.
    destruct (cofactor mid d) as (_ & Hq & Hle & Hmodq & _); try lia.
    destruct Hb as [->| ->]; split; assumption || lia.
  - intros [Hb Hmod]. right.
    destruct (Z_le_gt_dec b (Z.sqrt mid)) as [Hle|Hgt].
    + exists b. rewrite range_In. repeat split; auto; lia.
    + destruct (divisor_below_or_above mid b) as (Hq & Hmodq & Hdiv); try lia.
      exists (mid / b). rewrite range_In. repeat split; auto; lia.
Qed.

(** The members of the set that pass [b > 1] are the ratios of [mid]. *)
Lemma b_set_of_ratios mid :
  1 <= mid ->
  Permutation (filter (fun b => negb (b <=? 1)) (Graph.b_set_of mid)) (ratios mid).
Proof.
  intros Hmid. apply NoDup_Permutation.
  - apply NoDup_filter, b_set_of_NoDup.
  - apply ratios_NoDup.
  - intros b. rewrite filter_In, b_set_of_In, ratios_In by assumption.
    destruct (Z.leb_spec b 1); simpl; intuition (discriminate || lia).
Qed.

Lemma sum_over_b_set (f : Z -> Z) mid :
  (if mid <=? 1 then 0
   else sumZ (fun b => if b <=? 1 then 0 else f b) (Graph.b_set_of mid)) =
  sumZ f (ratios mid).
Proof.
  destruct (Z.leb_spec mid 1) as [Hle|Hgt].
  - now rewrite ratios_nil.
  - rewrite <- (sumZ_perm f _ _ (b_set_of_ratios mid ltac:(lia))).
    rewrite <- sumZ_filter. apply sumZ_ext_in. intros b _.
    now destruct (b <=? 1).
Qed.

End Divisors.

Lemma optimized_triplets_ratio_count (a : list Z) :
  Graph.optimized_triplets a = ratio_count a.
Proof.
  rewrite optimized_triplets_sum. unfold ratio_count. f_equal.
  apply sumZ_ext_in. intros mid _. apply sum_over_b_set.
Qed.

(** ** Running the optimized counter: no exception, the Counter untouched *)
Section RunOptimized.
Import Py Exec.
Local Open Scope exec_scope.

(** A [for] loop whose body returns at every element returns the fold of
    the values, and leaves the Counter as the body does. *)
Lemma for_each_returns {A B : Type} (body : B -> A -> M B) (g : B -> A -> B)
    (l : list A) (freq : counter) :
  (forall acc x, In x l -> body acc x freq = Return (g acc x, freq)) ->
  forall acc, for_each l body acc freq = Return (fold_left g l acc, freq).
Proof.
  induction l as [|x l IH]; intros H acc; cbn [for_each fold_left].
  - reflexivity.
  - unfold bind. rewrite H by apply in_eq. apply IH.
    intros acc' y Hy. apply H. now apply in_cons.
Qed.

Lemma pymod_returns x y freq : y <> 0 -> pymod x y freq = Return (x mod y, freq).
Proof. intros Hy. unfold pymod. now destruct (Z.eqb_spec y 0). Qed.

Lemma floordiv_returns x y freq : y <> 0 -> floordiv x y freq = Return (x / y, freq).
Proof. intros Hy. unfold floordiv. now destruct (Z.eqb_spec y 0). Qed.

Lemma isqrt_returns x freq : 0 <= x -> isqrt x freq = Return (Z.sqrt x, freq).
Proof. intros Hx. unfold isqrt. now destruct (Z.ltb_spec x 0); [lia|]. Qed.

Lemma collect_divisor_returns mid b_set d freq :
  1 <= d ->
  collect_divisor mid b_set d freq =
  Return ((if mid mod d =? 0 then set_add (mid / d) (set_add d b_set) else b_set),
          freq).
Proof.
  intros Hd. unfold collect_divisor, bind.
  rewrite pymod_returns by lia.
  destruct (mid mod d =? 0); [|reflexivity].
  now rewrite floordiv_returns by lia.
Qed.

Lemma ratio_body_returns mid cnt_mid result b freq :
  ratio_body mid cnt_mid result b freq =
  Return (Graph.ratio_step freq mid cnt_mid result b, freq).
Proof.
  unfold ratio_body, Graph.ratio_step.
  destruct (Z.leb_spec b 1); [reflexivity|].
  unfold bind. rewrite floordiv_returns by lia.
  destruct (mid * b >? LIMIT); [reflexivity|].
  unfold freq_get.
  destruct (truthy (get freq (mid / b) 0) && truthy (get freq (mid * b) 0));
    reflexivity.
Qed.

Lemma mid_body_returns result mid freq :
  mid_body result mid freq = Return (Graph.mid_step freq result mid, freq).
Proof.
  unfold mid_body, Graph.mid_step, bind, freq_getitem.
  destruct (Z.leb_spec mid 1); [reflexivity|].
  rewrite isqrt_returns by lia.
  rewrite for_each_returns with (g := fun b_set d =>
    if mid mod d =? 0 then set_add (mid / d) (set_add d b_set) else b_set).
  - apply for_each_returns. intros acc b _. apply ratio_body_returns.
  - intros acc d Hd. apply range_In in Hd.
    apply collect_divisor_returns. lia.
Qed.

Lemma degenerate_loop_returns (l : list (Z * Z)) acc freq :
  for_each l (fun r vc => ret (Graph.degenerate_step r vc)) acc freq =
  Return (fold_left Graph.degenerate_step l acc, freq).
Proof. apply for_each_returns. reflexivity. Qed.

Lemma optimized_triplets_body_returns freq :
  optimized_triplets_body freq =
  Return (fold_left (Graph.mid_step freq) (keys freq)
            (fold_left Graph.degenerate_step (items freq) 0), freq).
Proof.
  unfold optimized_triplets_body, bind, freq_keys, freq_items.
  rewrite degenerate_loop_returns.
  apply for_each_returns. intros acc mid _. apply mid_body_returns.
Qed.

Lemma run_optimized_triplets_returns a :
  run_optimized_triplets a = Return (Graph.optimized_triplets a, Counter a).
Proof. apply optimized_triplets_body_returns. Qed.

End RunOptimized.

(** ** Running [solve_optimized] *)
Section RunSolve.
Import Py Exec SolveOptimized.
Local Open Scope exec_scope.
Variable a : list Z.

Lemma add_pair_returns cnt_val left right ret0 :
  add_pair cnt_val left right ret0 (Counter a) =
  Return (ret0 + cnt_val * multiplicity a left * multiplicity a right, Counter a).
Proof.
  unfold add_pair, bind, freq_contains, freq_getitem, ret.
  pose proof (contains_Counter a left) as Hl.
  pose proof (contains_Counter a right) as Hr.
  pose proof (truthy_product (multiplicity a left) (multiplicity a right)
                cnt_val) as Hp.
  rewrite <- Hl, <- Hr in Hp.
  destruct (contains (Counter a) left);
    [destruct (contains (Counter a) right)|];
    simpl in Hp; rewrite ?getitem_Counter; do 2 f_equal; lia.
Qed.

Lemma large_step_returns val ret0 b :
  b <> 0 ->
  large_step val (multiplicity a val) ret0 b (Counter a) =
  Return (ret0 + (if val mod b =? 0 then pair_product a val b else 0), Counter a).
Proof.
  intros Hb. unfold large_step, bind.
  rewrite pymod_returns by assumption.
  destruct (val mod b =? 0).
  - rewrite floordiv_returns by assumption. apply add_pair_returns.
  - unfold ret. do 2 f_equal. lia.
Qed.

(** One turn of the loop body, lines 34-48. *)
Lemma while_turn_returns val d ret0 (k : Z -> M Z) :
  1 <= d -> d * d <= val ->
  (m <- pymod val d ;;
   ret2 <-
     (if m =? 0 then
        ret1 <-
          (if d >? 1 then
             left <- floordiv val d ;;
             add_pair (multiplicity a val) left (val * d) ret0
           else ret ret0) ;;
        other <- floordiv val d ;;
        if negb (other =? d) && (other >? 1)
        then add_pair (multiplicity a val) d (val * other) ret1
        else ret ret1
      else ret ret0) ;;
   k ret2) (Counter a) =
  k (ret0 + divisor_turn a val d) (Counter a).
Proof.
  intros Hd Hsq. unfold bind at 1. rewrite pymod_returns by lia.
  unfold divisor_turn, bind.
  destruct (Z.eqb_spec (val mod d) 0) as [Hmod|Hmod].
  - destruct (cofactor val d) as (_ & _ & _ & _ & Hback); try nia.
    destruct (d >? 1).
    + rewrite floordiv_returns by lia. rewrite add_pair_returns.
      rewrite floordiv_returns by lia.
      destruct (negb (val / d =? d) && (val / d >? 1)).
      * rewrite add_pair_returns. unfold pair_product at 2. rewrite Hback.
        f_equal; unfold pair_product; lia.
      * unfold ret, pair_product. f_equal; lia.
    + unfold ret at 1. rewrite floordiv_returns by lia.
      destruct (negb (val / d =? d) && (val / d >? 1)).
      * rewrite add_pair_returns. unfold pair_product. rewrite Hback.
        f_equal; lia.
      * unfold ret. f_equal; lia.
  - unfold ret. f_equal; lia.
Qed.

Lemma square_le_sqrt val d : 1 <= d -> (d * d <= val <-> d <= Z.sqrt val).
Proof.
  intros Hd. destruct (Z_lt_le_dec val 0) as [Hneg|Hpos].
  - rewrite Z.sqrt_neg by assumption. nia.
  - destruct (sqrt_bounds val Hpos) as (Hr & Hlo & Hhi). split; intros; nia.
Qed.

(** The [while] loop ends: it needs one unit of fuel for each divisor
    from [d] to [isqrt(val)] and one for the test that fails. *)
Lemma while_divisor_returns val fuel d ret0 :
  1 <= d -> (Z.to_nat (Z.sqrt val + 1 - d) < fuel)%nat ->
  while_divisor fuel val (multiplicity a val) d ret0 (Counter a) =
  Return (ret0 + sumZ (divisor_turn a val) (range d (Z.sqrt val + 1)), Counter a).
Proof.
  revert d ret0. induction fuel as [|fuel IH]; intros d ret0 Hd Hfuel; [lia|].
  cbn [while_divisor].
  destruct (Z.leb_spec (d * d) val) as [Hle|Hgt].
  - rewrite while_turn_returns by assumption.
    apply square_le_sqrt in Hle; [|assumption].
    rewrite IH by lia. rewrite (range_cons d) by lia. cbn [sumZ].
    do 2 f_equal; lia.
  - assert (Hd' : ~ d <= Z.sqrt val) by (rewrite <- square_le_sqrt; lia).
    rewrite range_nil by lia. unfold ret. cbn [sumZ]. do 2 f_equal; lia.
Qed.

(** The divisors [d <= isqrt(val)] above 1, followed by the cofactors
    [val // d] that differ from [d] and exceed 1, list every ratio once. *)
Lemma small_branch_ratios val :
  1 <= val ->
  Permutation
    (filter (fun d => (val mod d =? 0) && (d >? 1))
            (range 1 (Z.sqrt val + 1)) ++
     map (fun d => val / d)
         (filter (fun d => (val mod d =? 0) &&
                           (negb (val / d =? d) && (val / d >? 1)))
                 (range 1 (Z.sqrt val + 1))))
    (ratios val).
Proof.
  intros Hval.
  destruct (sqrt_bounds val) as (Hr & Hlo & Hhi); [lia|].
  assert (Hin1 : forall d,
    In d (filter (fun d => (val mod d =? 0) && (d >? 1))
                 (range 1 (Z.sqrt val + 1))) <->
    1 < d <= Z.sqrt val /\ val mod d = 0).
  { intros d. rewrite filter_In, range_In, andb_true_iff, Z.eqb_eq, Z.gtb_ltb,
      Z.ltb_lt. lia. }
  assert (Hin2 : forall d,
    In d (filter (fun d => (val mod d =? 0) &&
                           (negb (val / d =? d) && (val / d >? 1)))
                 (range 1 (Z.sqrt val + 1))) <->
    1 <= d <= Z.sqrt val /\ val mod d = 0 /\ val / d <> d /\ 1 < val / d).
  { intros d. rewrite filter_In, range_In, !andb_true_iff, negb_true_iff,
      Z.eqb_eq, Z.eqb_neq, Z.gtb_ltb, Z.ltb_lt. lia. }
  apply NoDup_Permutation.
  - apply NoDup_app.
    + apply NoDup_filter, range_NoDup.
    + apply NoDup_map_NoDup_ForallPairs; [|apply NoDup_filter, range_NoDup].
      intros x y Hx Hy Heq. apply Hin2 in Hx, Hy.
      destruct (cofactor val x) as (Hvx & Hqx & _); try lia.
      destruct (cofactor val y) as (Hvy & Hqy & _); try lia.
      rewrite <- Heq in Hvy. nia.
    + intros b Hb Hb'. apply Hin1 in Hb. apply in_map_iff in Hb'.
      destruct Hb' as (d & <- & Hd). apply Hin2 in Hd.
      destruct (cofactor val d) as (Hvd & Hqd & _); try lia.
      assert (d = Z.sqrt val) by nia. assert (val / d = Z.sqrt val) by nia.
      lia.
  - apply ratios_NoDup.
  - intros b. rewrite in_app_iff, Hin1, in_map_iff, ratios_In. split.
    + intros [[Hb Hmod]|(d & <- & Hd)].
      * destruct (cofactor val b) as (_ & _ & Hle & _); lia.
      * apply Hin2 in Hd.
        destruct (cofactor val d) as (_ & Hq & _ & Hmodq & _); lia.
    + intros [Hb Hmod].
      destruct (Z_le_gt_dec b (Z.sqrt val)) as [Hle|Hgt]; [left; lia|].
      right. exists (val / b).
      destruct (divisor_below_or_above val b) as (Hq & Hmodq & Hback); try lia.
      split; [assumption|]. apply Hin2. rewrite Hback. lia.
Qed.

Lemma divisor_turns_sum val :
  sumZ (divisor_turn a val) (range 1 (Z.sqrt val + 1)) =
  sumZ (pair_product a val) (ratios val).
Proof.
  destruct (Z_le_gt_dec val 0) as [Hle|Hgt].
  - rewrite ratios_nil by lia.
    assert (Z.sqrt val = 0) as ->.
    { destruct (Z.eq_dec val 0) as [->|]; [reflexivity|apply Z.sqrt_neg; lia]. }
    reflexivity.
  - rewrite <- (sumZ_perm _ _ _ (small_branch_ratios val ltac:(lia))).
    rewrite sumZ_app, sumZ_map, <- !sumZ_filter, <- sumZ_plus.
    apply sumZ_ext_in. intros d _. unfold divisor_turn.
    destruct (val mod d =? 0); reflexivity.
Qed.

(** The bound [b <= LIMIT // val] of the first branch selects the ratios
    with [val * b <= LIMIT]. *)
Lemma large_branch_ratios val :
  1 <= val ->
  Permutation
    (filter (fun b => val mod b =? 0) (range 2 (LIMIT / val + 1)))
    (filter (fun b => val * b <=? LIMIT) (ratios val)).
Proof.
  intros Hval. apply NoDup_Permutation.
  - apply NoDup_filter, range_NoDup.
  - apply NoDup_filter, ratios_NoDup.
  - intros b. rewrite !filter_In, range_In, ratios_In, Z.eqb_eq, Z.leb_le.
    split.
    + intros [Hb Hmod].
      destruct (cofactor val b) as (_ & _ & Hle & _); try lia.
      pose proof (Z.mul_div_le LIMIT val ltac:(lia)).
      repeat split; try lia. nia.
    + intros [[Hb Hmod] Hle].
      assert (b <= LIMIT / val) by (apply Z.div_le_lower_bound; lia).
      lia.
Qed.

Lemma sqrt_small val : val < 1000000 -> Z.sqrt val < 1000.
Proof.
  intros Hlt. destruct (Z_lt_le_dec val 0) as [Hneg|Hpos].
  - rewrite Z.sqrt_neg by assumption. lia.
  - destruct (sqrt_bounds val Hpos) as (Hr & Hlo & Hhi). nia.
Qed.

Lemma val_step_returns fuel ret0 val :
  (1000 <= fuel)%nat ->
  val_step fuel ret0 val (Counter a) =
  Return (ret0 + sumZ (solve_contribution a val) (ratios val), Counter a).
Proof.
  intros Hfuel. unfold val_step, bind, freq_getitem, solve_contribution.
  rewrite getitem_Counter, Z.geb_leb.
  destruct (Z.leb_spec 1000000 val) as [Hbig|Hsmall].
  - rewrite floordiv_returns by lia.
    rewrite for_each_returns with (g := fun acc b =>
      acc + (if val mod b =? 0 then pair_product a val b else 0)).
    2:{ intros acc b Hb. apply range_In in Hb.
        apply large_step_returns. lia. }
    rewrite fold_left_sumZ with (f := fun b =>
      if val mod b =? 0 then pair_product a val b else 0) by reflexivity.
    rewrite sumZ_filter.
    rewrite (sumZ_perm _ _ _ (large_branch_ratios val ltac:(lia))).
    rewrite <- sumZ_filter. reflexivity.
  - pose proof (sqrt_small val Hsmall). pose proof (Z.sqrt_nonneg val).
    rewrite while_divisor_returns by lia.
    now rewrite divisor_turns_sum.
Qed.

Lemma solve_optimized_returns fuel :
  (1000 <= fuel)%nat ->
  solve_optimized fuel a = Return (solve_count a, Counter a).
Proof.
  intros Hfuel.
  unfold solve_optimized, solve_optimized_body, bind, freq_keys, freq_items.
  rewrite degenerate_loop_returns, degenerate_loop_sum.
  rewrite for_each_returns with (g := fun acc val =>
    acc + sumZ (solve_contribution a val) (ratios val)).
  2:{ intros acc val _. now apply val_step_returns. }
  rewrite fold_left_sumZ with (f := fun val =>
    sumZ (solve_contribution a val) (ratios val)) by reflexivity.
  reflexivity.
Qed.

End RunSolve.

(** ** The two optimized scripts against each other and against [LIMIT] *)

Lemma pair_product_bounded (a : list Z) (mid b : Z) :
  Forall (fun x => x <= LIMIT) a ->
  pair_product a mid b = pair_contribution a mid b.
Proof.
  intros Ha. unfold pair_product, pair_contribution.
  destruct (Z.leb_spec (mid * b) LIMIT) as [Hle|Hgt]; [reflexivity|].
  assert (Hzero : multiplicity a (mid * b) = 0).
  { pose proof (multiplicity_nonneg a (mid * b)).
    destruct (Z.eq_dec (multiplicity a (mid * b)) 0) as [|Hne]; [assumption|].
    assert (Hin : In (mid * b) a) by (apply multiplicity_pos_iff; lia).
    rewrite Forall_forall in Ha. apply Ha in Hin. lia. }
  rewrite Hzero. lia.
Qed.

Lemma solve_count_bounded (a : list Z) :
  Forall (fun x => x <= LIMIT) a -> solve_count a = ratio_count a.
Proof.
  intros Ha. unfold solve_count, ratio_count. f_equal.
  apply sumZ_ext_in. intros mid _. apply sumZ_ext_in. intros b _.
  unfold solve_contribution. destruct (mid >=? 1000000); [reflexivity|].
  now apply pair_product_bounded.
Qed.

Lemma in_range_bounded (a : list Z) :
  in_range a -> Forall (fun x => x <= LIMIT) a.
Proof. apply Forall_impl. intros x Hx. lia. Qed.

(** C10. On every sequence whose values lie in [1, 10^9], the counting
    loops of [solve_optimized] (given the fuel for at most 1000 tests of
    the [while] condition) return the total of [optimized_triplets]. *)
Theorem solve_optimized_agrees (a : list Z) (fuel : nat) :
  in_range a -> (1000 <= fuel)%nat ->
  SolveOptimized.solve_optimized fuel a =
  Exec.Return (Graph.optimized_triplets a, Py.Counter a).
Proof.
  intros Ha Hfuel. rewrite solve_optimized_returns by assumption.
  rewrite solve_count_bounded by now apply in_range_bounded.
  now rewrite optimized_triplets_ratio_count.
Qed.

Lemma solve_optimized_agrees_witness :
  in_range [1; 2; 4; 1000000; 2000000] /\ (1000 <= 1000)%nat /\
  SolveOptimized.solve_optimized 1000 [1; 2; 4; 1000000; 2000000] =
  Exec.Return (Graph.optimized_triplets [1; 2; 4; 1000000; 2000000],
               Py.Counter [1; 2; 4; 1000000; 2000000]).
Proof.
  assert (Ha : in_range [1; 2; 4; 1000000; 2000000]).
  { unfold in_range, LIMIT. repeat constructor; lia. }
  assert (Hfuel : (1000 <= 1000)%nat) by lia.
  split; [exact Ha|]. split; [exact Hfuel|].
  exact (solve_optimized_agrees _ 1000%nat Ha Hfuel).
Defined.

(** C3, as the code has it.  [optimized_triplets] adds, for every
    sequence, every distinct value [mid] and every ratio [b > 1] of
    [mid], exactly [pair_contribution]: the product
    [cntMid * cL * cR] when [mid * b <= LIMIT] (so also when
    [mid * b = LIMIT]) and nothing when [mid * b > LIMIT], whatever the
    index holds.  [solve_optimized] adds the same on every sequence with
    no value above [LIMIT]. *)
Theorem pair_contribution_within_limit (a : list Z) :
  Graph.optimized_triplets a = ratio_count a /\
  (forall fuel, (1000 <= fuel)%nat -> Forall (fun x => x <= LIMIT) a ->
     SolveOptimized.solve_optimized fuel a =
     Exec.Return (ratio_count a, Py.Counter a)) /\
  (forall mid b, mid * b <= LIMIT ->
     pair_contribution a mid b =
     multiplicity a mid * multiplicity a (mid / b) * multiplicity a (mid * b)) /\
  (forall mid b, LIMIT < mid * b -> pair_contribution a mid b = 0) /\
  (forall mid, NoDup (ratios mid)) /\
  (forall mid b, 1 <= mid -> (In b (ratios mid) <-> 1 < b /\ (b | mid))).
Proof.
  split; [apply optimized_triplets_ratio_count|].
  split.
  { intros fuel Hfuel Ha. rewrite solve_optimized_returns by assumption.
    now rewrite solve_count_bounded. }
  split.
  { intros mid b Hle. unfold pair_contribution.
    destruct (Z.leb_spec (mid * b) LIMIT); [reflexivity|lia]. }
  split.
  { intros mid b Hgt. unfold pair_contribution.
    destruct (Z.leb_spec (mid * b) LIMIT); [lia|reflexivity]. }
  split; [apply ratios_NoDup|apply ratios_divisors].
Qed.

Lemma pair_contribution_within_limit_witness :
  (1000 <= 1000)%nat /\ Forall (fun x => x <= LIMIT) [500000000; 1000000000; 2] /\
  1000000000 * 1 <= LIMIT /\ LIMIT < 1000000000 * 2 /\ 1 <= 4 /\
  SolveOptimized.solve_optimized 1000 [500000000; 1000000000; 2] =
  Exec.Return (ratio_count [500000000; 1000000000; 2],
               Py.Counter [500000000; 1000000000; 2]) /\
  pair_contribution [500000000; 1000000000; 2] 1000000000 2 = 0 /\
  (In 2 (ratios 4) <-> 1 < 2 /\ (2 | 4)).
Proof.
  assert (Hfuel : (1000 <= 1000)%nat) by lia.
  assert (Ha : Forall (fun x => x <= LIMIT) [500000000; 1000000000; 2]).
  { unfold LIMIT. repeat constructor; lia. }
  assert (Hle : 1000000000 * 1 <= LIMIT) by (unfold LIMIT; lia).
  assert (Hgt : LIMIT < 1000000000 * 2) by (unfold LIMIT; lia).
  assert (Hmid : 1 <= 4) by lia.
  destruct (pair_contribution_within_limit [500000000; 1000000000; 2])
    as (_ & Hsolve & _ & Hzero & _ & Hratios).
  repeat (split; [assumption|]).
  split; [exact (Hsolve 1000%nat Hfuel Ha)|].
  split; [exact (Hzero 1000000000 2 Hgt)|exact (Hratios 4 2 Hmid)].
Defined.

(** C3, as the specification states it, fails for [solve_optimized]:
    on [[1, 31623, 31623^2]] the pair of [mid = 31623] and ratio
    [b = 31623] has [right = 1000014129 > LIMIT], which should add
    nothing, and the script counts it. *)
Lemma solve_optimized_counts_beyond_limit :
  In 31623 (ratios 31623) /\ LIMIT < 31623 * 31623 /\
  pair_contribution [1; 31623; 1000014129] 31623 31623 = 0 /\
  ratio_count [1; 31623; 1000014129] = 0 /\
  Graph.optimized_triplets [1; 31623; 1000014129] = 0 /\
  solve_contribution [1; 31623; 1000014129] 31623 31623 = 1 /\
  Exec.returned (SolveOptimized.solve_optimized 1000 [1; 31623; 1000014129])
  = Some 1.
Proof.
  split; [apply ratios_In; vm_compute; intuition discriminate|].
  rewrite <- optimized_triplets_ratio_count.
  repeat match goal with |- _ /\ _ => split end; vm_compute; reflexivity.
Qed.

(** C1, evaluated at [[1, 2, 4]]: the brute-force counter finds the two
    triples (0, 1, 2) and (2, 1, 0), the optimized counter only the one
    with [a[i] < a[j] < a[k]]. *)
Lemma optimized_differs_from_naive :
  Graph.naive_triplets [1; 2; 4] = 2 /\ Graph.optimized_triplets [1; 2; 4] = 1.
Proof. split; reflexivity. Qed.

(** ** Errors: none is raised, nothing wraps *)

Lemma returned_not_failed {A : Type} (x : A) (freq : Py.counter) :
  ~ Exec.failed (Exec.Return (x, freq)).
Proof. intros [e He]. discriminate He. Qed.

(** C6, as the code has it.  The scripts do not validate their input:
    on every integer sequence, whatever its values, [optimized_triplets]
    and [solve_optimized] (with fuel for 1000 tests of the [while]
    condition) return a count and raise nothing. *)
Theorem count_never_fails (a : list Z) (fuel : nat) :
  (1000 <= fuel)%nat ->
  (exists n, Exec.run_optimized_triplets a = Exec.Return (n, Py.Counter a)) /\
  ~ Exec.failed (Exec.run_optimized_triplets a) /\
  (exists n, SolveOptimized.solve_optimized fuel a = Exec.Return (n, Py.Counter a)) /\
  ~ Exec.failed (SolveOptimized.solve_optimized fuel a).
Proof.
  intros Hfuel.
  rewrite run_optimized_triplets_returns, solve_optimized_returns by assumption.
  repeat split; eauto using returned_not_failed.
Qed.

Lemma count_never_fails_witness :
  (1000 <= 1000)%nat /\
  (exists n, Exec.run_optimized_triplets [3; 0; -6; 12] =
             Exec.Return (n, Py.Counter [3; 0; -6; 12])) /\
  ~ Exec.failed (Exec.run_optimized_triplets [3; 0; -6; 12]) /\
  (exists n, SolveOptimized.solve_optimized 1000 [3; 0; -6; 12] =
             Exec.Return (n, Py.Counter [3; 0; -6; 12])) /\
  ~ Exec.failed (SolveOptimized.solve_optimized 1000 [3; 0; -6; 12]).
Proof.
  assert (Hfuel : (1000 <= 1000)%nat) by lia.
  split; [exact Hfuel|]. exact (count_never_fails [3; 0; -6; 12] 1000 Hfuel).
Defined.

(** C6, as the specification states it, fails: the sequence
    [[0, 1000000001]] holds a non-positive value and a value above
    [LIMIT], and both scripts return the count 0 for it. *)
Lemma invalid_input_not_rejected :
  Exists (fun x => x <= 0) [0; 1000000001] /\
  Exists (fun x => LIMIT < x) [0; 1000000001] /\
  Exec.run_optimized_triplets [0; 1000000001] =
    Exec.Return (0, [(0, 1); (1000000001, 1)]) /\
  ~ Exec.failed (Exec.run_optimized_triplets [0; 1000000001]) /\
  SolveOptimized.solve_optimized 1000 [0; 1000000001] =
    Exec.Return (0, [(0, 1); (1000000001, 1)]) /\
  ~ Exec.failed (SolveOptimized.solve_optimized 1000 [0; 1000000001]).
Proof.
  assert (H1 : Exec.run_optimized_triplets [0; 1000000001] =
               Exec.Return (0, [(0, 1); (1000000001, 1)]))
    by (vm_compute; reflexivity).
  assert (H2 : SolveOptimized.solve_optimized 1000 [0; 1000000001] =
               Exec.Return (0, [(0, 1); (1000000001, 1)]))
    by (vm_compute; reflexivity).
  split; [apply Exists_cons_hd; lia|].
  split; [apply Exists_cons_tl, Exists_cons_hd; unfold LIMIT; lia|].
  split; [exact H1|]. split; [rewrite H1; apply returned_not_failed|].
  split; [exact H2|]. rewrite H2. apply returned_not_failed.
Qed.



(** C8.  The Frequency Index [Counter(a)] stores multiplicities that sum
    to [len(a)], each at least 1, and the counting phase of either
    script ends with the index it started from: it only reads it. *)
Theorem frequency_index_invariant (a : list Z) :
  sumZ snd (Py.items (Py.Counter a)) = Z.of_nat (length a) /\
  (forall k c, In (k, c) (Py.items (Py.Counter a)) -> 1 <= c) /\
  (forall freq, exists n, Exec.optimized_triplets_body freq = Exec.Return (n, freq)) /\
  (exists n, Exec.run_optimized_triplets a = Exec.Return (n, Py.Counter a)) /\
  (forall fuel, (1000 <= fuel)%nat ->
     exists n, SolveOptimized.solve_optimized fuel a = Exec.Return (n, Py.Counter a)).
Proof.
  split; [apply sum_counts_Counter|].
  split; [apply counts_positive_Counter|].
  split; [intros freq; rewrite optimized_triplets_body_returns; eauto|].
  split; [rewrite run_optimized_triplets_returns; eauto|].
  intros fuel Hfuel. rewrite solve_optimized_returns by assumption. eauto.
Qed.

Lemma frequency_index_invariant_witness :
  In (7, 2) (Py.items (Py.Counter [7; 1; 7])) /\ (1000 <= 1000)%nat /\
  sumZ snd (Py.items (Py.Counter [7; 1; 7])) = 3 /\ 1 <= 2 /\
  (exists n, SolveOptimized.solve_optimized 1000 [7; 1; 7] =
             Exec.Return (n, Py.Counter [7; 1; 7])).
Proof.
  assert (Hin : In (7, 2) (Py.items (Py.Counter [7; 1; 7]))) by (simpl; auto).
  assert (Hfuel : (1000 <= 1000)%nat) by lia.
  destruct (frequency_index_invariant [7; 1; 7]) as (Hsum & Hpos & _ & _ & Hsolve).
  split; [exact Hin|]. split; [exact Hfuel|].
  split; [exact Hsum|]. split; [exact (Hpos 7 2 Hin)|exact (Hsolve 1000%nat Hfuel)].
Defined.

(** ** [list_triplets_bruteforce]: the triples themselves *)
Section ListTriplets.
Import Py EmpiricalTesting.

Lemma flat_map_ext_in {A B : Type} (f g : A -> list B) (l : list A) :
  (forall x, In x l -> f x = g x) -> flat_map f l = flat_map g l.
Proof.
  induction l as [|x l IH]; simpl; intros H; [reflexivity|].
  rewrite (H x), IH; auto.
Qed.

Lemma NoDup_flat_map {A B : Type} (f : A -> list B) (l : list A) :
  NoDup l ->
  (forall x, In x l -> NoDup (f x)) ->
  (forall x y z, In x l -> In y l -> In z (f x) -> In z (f y) -> x = y) ->
  NoDup (flat_map f l).
Proof.
  induction 1 as [|x l Hx Hnd IH]; simpl; intros Hf Hdisj; [constructor|].
  apply NoDup_app.
  - apply Hf. now left.
  - apply IH; [intros; apply Hf; now right|].
    intros x' y z Hx' Hy. apply Hdisj; now right.
  - intros z Hz Hz'. apply in_flat_map in Hz'. destruct Hz' as (y & Hy & Hzy).
    assert (x = y) by (apply (Hdisj x y z); auto; now left || now right).
    subst. contradiction.
Qed.

Lemma sumZ_flat_map {A B : Type} (f : B -> Z) (g : A -> list B) (l : list A) :
  sumZ f (flat_map g l) = sumZ (fun x => sumZ f (g x)) l.
Proof.
  induction l as [|x l IH]; simpl; [reflexivity|]. now rewrite sumZ_app, IH.
Qed.

Lemma length_filter_sumZ {A : Type} (p : A -> bool) (l : list A) :
  Z.of_nat (length (filter p l)) = sumZ (fun x => indicator (p x)) l.
Proof.
  induction l as [|x l IH]; simpl; [reflexivity|].
  destruct (p x); simpl length; unfold indicator in *; lia.
Qed.

(** Appending the elements that pass a test is filtering. *)
Lemma fold_left_append_filter {A : Type} (p : A -> bool) (l acc : list A) :
  fold_left (fun triples x => if p x then triples ++ [x] else triples) l acc =
  acc ++ filter p l.
Proof.
  revert acc. induction l as [|x l IH]; intros acc; simpl.
  - now rewrite app_nil_r.
  - rewrite IH. destruct (p x); [|reflexivity].
    now rewrite <- app_assoc.
Qed.

Lemma fold_left_ext {A B : Type} (f g : B -> A -> B) (l : list A) (acc : B) :
  (forall r x, f r x = g r x) -> fold_left f l acc = fold_left g l acc.
Proof.
  intros H. revert acc. induction l as [|x l IH]; intros acc; simpl;
    [reflexivity|]. now rewrite H, IH.
Qed.

(** The permutations of [range(n)] taken three at a time. *)
Lemma permutations3_range (n : nat) :
  permutations3 (seq 0 n) =
  flat_map (fun i =>
    flat_map (fun j =>
      if Nat.eqb j i then [] else
      flat_map (fun k => if Nat.eqb k i || Nat.eqb k j then [] else [(i, j, k)])
        (seq 0 n))
      (seq 0 n))
    (seq 0 n).
Proof.
  unfold permutations3. rewrite length_seq.
  apply flat_map_ext_in. intros i Hi. apply flat_map_ext_in. intros j Hj.
  destruct (Nat.eqb j i); [reflexivity|].
  apply flat_map_ext_in. intros k Hk.
  apply in_seq in Hi, Hj, Hk.
  now rewrite !seq_nth by lia.
Qed.

Lemma permutations3_range_In (n i j k : nat) :
  In (i, j, k) (permutations3 (seq 0 n)) <->
  (i < n /\ j < n /\ k < n)%nat /\ i <> j /\ i <> k /\ j <> k.
Proof.
  rewrite permutations3_range, in_flat_map. split.
  - intros (i' & Hi & H). apply in_flat_map in H. destruct H as (j' & Hj & H).
    destruct (Nat.eqb_spec j' i'); [destruct H|].
    apply in_flat_map in H. destruct H as (k' & Hk & H).
    destruct (Nat.eqb_spec k' i'); [destruct H|].
    destruct (Nat.eqb_spec k' j'); [destruct H|].
    destruct H as [H|[]]. inversion H; subst.
    apply in_seq in Hi, Hj, Hk. repeat split; try lia; congruence.
  - intros ((Hi & Hj & Hk) & Hij & Hik & Hjk).
    exists i. split; [apply in_seq; lia|].
    apply in_flat_map. exists j. split; [apply in_seq; lia|].
    destruct (Nat.eqb_spec j i); [congruence|].
    apply in_flat_map. exists k. split; [apply in_seq; lia|].
    destruct (Nat.eqb_spec k i); [congruence|].
    destruct (Nat.eqb_spec k j); [congruence|]. now left.
Qed.

Lemma permutations3_range_NoDup (n : nat) : NoDup (permutations3 (seq 0 n)).
Proof.
  rewrite permutations3_range.
  apply NoDup_flat_map; [apply seq_NoDup| |].
  - intros i _. apply NoDup_flat_map; [apply seq_NoDup| |].
    + intros j _. destruct (Nat.eqb j i); [constructor|].
      apply NoDup_flat_map; [apply seq_NoDup| |].
      * intros k _. destruct (Nat.eqb k i || Nat.eqb k j);
          repeat constructor; intros [].
      * intros k k' z _ _ H H'.
        destruct (Nat.eqb k i || Nat.eqb k j); [destruct H|].
        destruct (Nat.eqb k' i || Nat.eqb k' j); [destruct H'|].
        destruct H as [<-|[]], H' as [H'|[]]. congruence.
    + intros j j' z _ _ H H'.
      destruct (Nat.eqb j i); [destruct H|].
      destruct (Nat.eqb j' i); [destruct H'|].
      apply in_flat_map in H, H'.
      destruct H as (k & _ & H), H' as (k' & _ & H').
      destruct (Nat.eqb k i || Nat.eqb k j); [destruct H|].
      destruct (Nat.eqb k' i || Nat.eqb k' j'); [destruct H'|].
      destruct H as [<-|[]], H' as [H'|[]]. congruence.
  - intros i i' z _ _ H H'. apply in_flat_map in H, H'.
    destruct H as (j & _ & H), H' as (j' & _ & H').
    destruct (Nat.eqb j i); [destruct H|].
    destruct (Nat.eqb j' i'); [destruct H'|].
    apply in_flat_map in H, H'.
    destruct H as (k & _ & H), H' as (k' & _ & H').
    destruct (Nat.eqb k i || Nat.eqb k j); [destruct H|].
    destruct (Nat.eqb k' i' || Nat.eqb k' j'); [destruct H'|].
    destruct H as [<-|[]], H' as [H'|[]]. congruence.
Qed.

Lemma list_triplets_bruteforce_filter (a : list Z) :
  list_triplets_bruteforce a =
  filter (fun ijk => geometric a (fst (fst ijk)) (snd (fst ijk)) (snd ijk))
         (permutations3 (seq 0 (length a))).
Proof.
  unfold list_triplets_bruteforce.
  rewrite <- (app_nil_l (filter _ _)), <- fold_left_append_filter.
  apply fold_left_ext. intros triples [[i j] k]. reflexivity.
Qed.

End ListTriplets.

(** X1. [list_triplets_bruteforce(a)] lists, each once, exactly the
    triples of pairwise distinct positions of [a] with
    a[j]^2 = a[i] * a[k]. *)
Theorem list_triplets_bruteforce_complete (a : list Z) :
  NoDup (EmpiricalTesting.list_triplets_bruteforce a) /\
  forall i j k,
    In (i, j, k) (EmpiricalTesting.list_triplets_bruteforce a) <->
    (i < length a /\ j < length a /\ k < length a)%nat /\
    (i <> j /\ i <> k /\ j <> k) /\
    Py.item a j * Py.item a j = Py.item a i * Py.item a k.
Proof.
  rewrite list_triplets_bruteforce_filter. split.
  - apply NoDup_filter, permutations3_range_NoDup.
  - intros i j k. rewrite filter_In, permutations3_range_In.
    unfold geometric. simpl. rewrite Z.eqb_eq. tauto.
Qed.

Lemma length_list_triplets (a : list Z) :
  Z.of_nat (length (EmpiricalTesting.list_triplets_bruteforce a)) =
  Graph.naive_triplets a.
Proof.
  rewrite list_triplets_bruteforce_filter, length_filter_sumZ.
  rewrite permutations3_range, naive_triplets_sum.
  rewrite sumZ_flat_map. apply sumZ_ext_in. intros i _.
  rewrite sumZ_flat_map. apply sumZ_ext_in. intros j _.
  destruct (Nat.eqb j i); [reflexivity|].
  rewrite sumZ_flat_map. apply sumZ_ext_in. intros k _.
  destruct (Nat.eqb k i || Nat.eqb k j); simpl; [reflexivity|lia].
Qed.

(** ** The unordered brute force on a declared length *)
Section Unordered.
Import Py.

(** The ordered triple sum over the first [n] positions is twice what the
    loops of [solve_naive_unordered] count, whatever [n] is. *)
Lemma ordered_sum_twice_unordered (n : nat) (a : list Z) :
  sumZ (fun i => sumZ (fun j =>
    if Nat.eqb j i then 0 else
    sumZ (fun k =>
      if Nat.eqb k i || Nat.eqb k j then 0 else indicator (geometric a i j k))
      (seq 0 n)) (seq 0 n)) (seq 0 n) =
  2 * SolveNaive.solve_naive_unordered n a.
Proof.
  rewrite solve_naive_unordered_sum, sumZ_swap, <- sumZ_scale.
  apply sumZ_ext_in. intros j _.
  set (h := fun i k : nat =>
    if Nat.eqb i j || Nat.eqb k j then 0 else indicator (geometric a i j k)).
  rewrite (sumZ_ext_in _
    (fun i => sumZ (fun k => if Nat.eqb k i then 0 else h i k) (seq 0 n))).
  2:{ intros i _. unfold h. rewrite (Nat.eqb_sym j i).
      destruct (Nat.eqb i j); simpl.
      - symmetry. apply sumZ_zero. intros k _. now destruct (Nat.eqb k i).
      - apply sumZ_ext_in. intros k _. now destruct (Nat.eqb k i). }
  rewrite sum_symmetric_pairs.
  2:{ intros i k. unfold h. rewrite (orb_comm (Nat.eqb i j)).
      now rewrite geometric_sym. }
  f_equal. apply sumZ_ext_in. intros i _. unfold h.
  destruct (Nat.eqb i j); simpl; [apply sumZ_zero|]; reflexivity.
Qed.

Lemma geometric_firstn (n : nat) (a : list Z) (i j k : nat) :
  (i < n)%nat -> (j < n)%nat -> (k < n)%nat ->
  geometric (firstn n a) i j k = geometric a i j k.
Proof.
  intros Hi Hj Hk. unfold geometric, item. rewrite !nth_firstn.
  apply Nat.ltb_lt in Hi, Hj, Hk. now rewrite Hi, Hj, Hk.
Qed.

End Unordered.

(** X3. When the declared length [n] is at most the length of the list
    read, [solve_naive_unordered] ignores the elements from position [n]
    on: twice its count is the ordered brute-force count of the first
    [n] elements. *)
Theorem unordered_counts_declared_prefix (n : nat) (a : list Z) :
  (n <= length a)%nat ->
  2 * SolveNaive.solve_naive_unordered n a = Graph.naive_triplets (firstn n a).
Proof.
  intros Hn. rewrite <- ordered_sum_twice_unordered, naive_triplets_sum.
  rewrite firstn_length_le by assumption.
  apply sumZ_ext_in. intros i Hi. apply sumZ_ext_in. intros j Hj.
  destruct (Nat.eqb j i); [reflexivity|].
  apply sumZ_ext_in. intros k Hk. apply in_seq in Hi, Hj, Hk.
  now rewrite geometric_firstn by lia.
Qed.

Lemma unordered_counts_declared_prefix_witness :
  (3 <= length [2; 4; 8; 1; 16]%Z)%nat /\
  2 * SolveNaive.solve_naive_unordered 3 [2; 4; 8; 1; 16] =
  Graph.naive_triplets (firstn 3 [2; 4; 8; 1; 16]).
Proof.
  assert (H : (3 <= length [2; 4; 8; 1; 16]%Z)%nat) by (simpl; lia).
  split; [exact H|]. exact (unordered_counts_declared_prefix 3 _ H).
Defined.

(** X4. On a value repeated [c] times the loops of
    [solve_naive_unordered] count [c * (c - 1) * (c - 2) / 2] triples. *)
Theorem unordered_all_equal_count (v : Z) (c : nat) :
  SolveNaive.solve_naive_unordered c (repeat v c) =
  Z.of_nat c * (Z.of_nat c - 1) * (Z.of_nat c - 2) / 2.
Proof.
  pose proof (ordered_sum_twice_unordered c (repeat v c)) as H.
  pose proof (naive_triplets_repeat v c) as Hn.
  rewrite naive_triplets_sum, repeat_length, H in Hn.
  rewrite <- Hn, Z.mul_comm, Z.div_mul; lia.
Qed.

(** ** Sums over positions and sums over distinct values *)
Section ValueSums.
Import Py.

Lemma sumZ_minus {A : Type} (f g : A -> Z) (l : list A) :
  sumZ (fun x => f x - g x) l = sumZ f l - sumZ g l.
Proof. induction l as [|x l IH]; simpl; lia. Qed.

(** A test for one element of a duplicate-free list selects its term. *)
Lemma sumZ_pick (F : Z -> Z) (t : Z) (l : list Z) :
  NoDup l ->
  sumZ (fun z => if z =? t then F z else 0) l = if existsb (Z.eqb t) l then F t else 0.
Proof.
  induction 1 as [|x l Hx Hnd IH]; simpl; [reflexivity|].
  rewrite IH, (Z.eqb_sym t x).
  destruct (Z.eqb_spec x t) as [->|Hne]; simpl; [|reflexivity].
  destruct (existsb (Z.eqb t) l) eqn:E; [|lia].
  apply existsb_eqb_In in E. contradiction.
Qed.

(** Two duplicate-free lists give the same sum when the summand vanishes
    on the elements that only one of them has. *)
Lemma sumZ_same_support (f : Z -> Z) (l1 l2 : list Z) :
  NoDup l1 -> NoDup l2 ->
  (forall x, In x l1 -> ~ In x l2 -> f x = 0) ->
  (forall x, In x l2 -> ~ In x l1 -> f x = 0) ->
  sumZ f l1 = sumZ f l2.
Proof.
  intros Hnd1 Hnd2 H1 H2.
  assert (Hcut : forall l l', (forall x, In x l -> ~ In x l' -> f x = 0) ->
            sumZ f l = sumZ f (filter (fun x => existsb (Z.eqb x) l') l)).
  { intros l l' H. rewrite <- sumZ_filter. apply sumZ_ext_in. intros x Hx.
    destruct (existsb (Z.eqb x) l') eqn:E; [reflexivity|].
    apply H; [assumption|]. intros Hin. apply existsb_eqb_In in Hin. congruence. }
  rewrite (Hcut l1 l2 H1), (Hcut l2 l1 H2).
  apply sumZ_perm, NoDup_Permutation; try now apply NoDup_filter.
  intros x. rewrite !filter_In, !existsb_eqb_In. tauto.
Qed.

(** A duplicate-free list inside another one sums to no more, for a
    summand that is not negative. *)
Lemma sumZ_incl_le (f : Z -> Z) (l1 l2 : list Z) :
  NoDup l1 -> incl l1 l2 -> (forall x, In x l2 -> 0 <= f x) ->
  sumZ f l1 <= sumZ f l2.
Proof.
  intros Hnd. revert l2. induction Hnd as [|x l1 Hx Hnd IH]; intros l2 Hincl Hpos.
  - simpl. now apply sumZ_nonneg.
  - assert (Hin : In x l2) by (apply Hincl; now left).
    apply in_split in Hin. destruct Hin as (la & lb & ->).
    rewrite sumZ_app. simpl.
    assert (Hle : sumZ f l1 <= sumZ f (la ++ lb)).
    { apply IH.
      - intros y Hy. assert (Hy' : In y (la ++ x :: lb)) by (apply Hincl; now right).
        rewrite in_app_iff in *. simpl in Hy'.
        destruct Hy' as [H|[H|H]]; auto. subst. contradiction.
      - intros y Hy. apply Hpos. rewrite in_app_iff in *. simpl. tauto. }
    rewrite sumZ_app in Hle. lia.
Qed.

Variable a : list Z.

(** Summing over the positions of [a] is summing over its elements. *)
Lemma sum_positions (F : Z -> Z) :
  sumZ (fun i => F (item a i)) (seq 0 (length a)) = sumZ F a.
Proof.
  unfold item. induction a as [|x l IH]; [reflexivity|].
  simpl length. rewrite <- cons_seq, <- seq_shift. cbn [sumZ nth].
  rewrite sumZ_map. cbn [nth]. now rewrite IH.
Qed.

Lemma multiplicity_cons x l v :
  multiplicity (x :: l) v = multiplicity l v + (if x =? v then 1 else 0).
Proof.
  unfold multiplicity. simpl. destruct (Z.eq_dec x v) as [->|Hne].
  - rewrite Z.eqb_refl. lia.
  - destruct (Z.eqb_spec x v); [contradiction|lia].
Qed.

Lemma sum_by_value_over (F : Z -> Z) (l keys : list Z) :
  NoDup keys -> incl l keys ->
  sumZ F l = sumZ (fun v => multiplicity l v * F v) keys.
Proof.
  intros Hnd. induction l as [|x l IH]; intros Hincl.
  - simpl. symmetry. apply sumZ_zero. reflexivity.
  - cbn [sumZ]. rewrite IH by (intros y Hy; apply Hincl; now right).
    rewrite (sumZ_ext_in (fun v => multiplicity (x :: l) v * F v)
               (fun v => multiplicity l v * F v +
                         (if v =? x then F v else 0))).
    2:{ intros v _. rewrite multiplicity_cons, (Z.eqb_sym x v).
        destruct (v =? x); lia. }
    rewrite sumZ_plus, sumZ_pick by assumption.
    assert (Hx : existsb (Z.eqb x) keys = true).
    { apply existsb_eqb_In, Hincl. now left. }
    rewrite Hx. lia.
Qed.

(** Summing over the elements is summing over the distinct values with
    their multiplicities. *)
Lemma sum_by_value (F : Z -> Z) :
  sumZ F a = sumZ (fun v => multiplicity a v * F v) (keys (Counter a)).
Proof.
  apply sum_by_value_over; [apply keys_Counter_NoDup|].
  intros x Hx. now apply keys_Counter_In.
Qed.

Lemma sum_equal_to (x : Z) :
  sumZ (fun z => indicator (z =? x)) a = multiplicity a x.
Proof.
  induction a as [|y l IH]; [reflexivity|].
  cbn [sumZ]. rewrite IH, multiplicity_cons. unfold indicator. lia.
Qed.

(** A multiplicity weight selects a value whether it is a key or not. *)
Lemma sum_keys_pick (F : Z -> Z) (t : Z) :
  sumZ (fun z => if z =? t then multiplicity a z * F z else 0) (keys (Counter a)) =
  multiplicity a t * F t.
Proof.
  rewrite (sumZ_pick (fun z => multiplicity a z * F z))
    by apply keys_Counter_NoDup.
  destruct (existsb (Z.eqb t) (keys (Counter a))) eqn:E; [reflexivity|].
  assert (Hzero : multiplicity a t = 0).
  { pose proof (multiplicity_nonneg a t).
    destruct (Z.eq_dec (multiplicity a t) 0) as [|Hne]; [assumption|].
    assert (Hin : In t (keys (Counter a))).
    { rewrite keys_Counter_In, <- multiplicity_pos_iff. lia. }
    apply existsb_eqb_In in Hin. congruence. }
  rewrite Hzero. lia.
Qed.

End ValueSums.

(** ** The brute-force count by values *)

(** Inclusion and exclusion over the positions: the sum over the triples
    of pairwise distinct positions below [n] is the sum over all triples,
    less the three sums with two positions equal, plus twice the sum with
    all three equal. *)
Lemma distinct_triple_sum (G : nat -> nat -> nat -> Z) (n : nat) :
  sumZ (fun i => sumZ (fun j =>
    if Nat.eqb j i then 0 else
    sumZ (fun k => if Nat.eqb k i || Nat.eqb k j then 0 else G i j k)
      (seq 0 n)) (seq 0 n)) (seq 0 n) =
  sumZ (fun i => sumZ (fun j => sumZ (fun k => G i j k) (seq 0 n)) (seq 0 n))
       (seq 0 n)
  - sumZ (fun i => sumZ (fun j => G i j j) (seq 0 n)) (seq 0 n)
  - sumZ (fun i => sumZ (fun j => G i j i) (seq 0 n)) (seq 0 n)
  - sumZ (fun i => sumZ (fun k => G i i k) (seq 0 n)) (seq 0 n)
  + 2 * sumZ (fun i => G i i i) (seq 0 n).
Proof.
  set (R := seq 0 n).
  assert (HR : NoDup R) by apply seq_NoDup.
  rewrite <- sumZ_scale, <- !sumZ_minus, <- sumZ_plus.
  apply sumZ_ext_in. intros i Hi.
  set (T := fun j => sumZ (fun k => G i j k) R - G i j j - G i j i).
  rewrite (sumZ_ext_in _ (fun j => if Nat.eqb j i then 0 else T j)).
  - rewrite sumZ_except by assumption. unfold T.
    rewrite !sumZ_minus. lia.
  - intros j Hj. destruct (Nat.eqb_spec j i) as [|Hji]; [reflexivity|].
    rewrite (sumZ_ext_in _
      (fun k => if Nat.eqb k i then 0 else if Nat.eqb k j then 0 else G i j k)).
    2:{ intros k _. now destruct (Nat.eqb k i), (Nat.eqb k j). }
    rewrite sumZ_except by assumption.
    rewrite sumZ_except by assumption.
    unfold T. destruct (Nat.eqb_spec i j); [congruence|reflexivity].
Qed.

Section NaiveByValue.
Import Py.
Variable a : list Z.
Hypothesis positive : Forall (fun x => 1 <= x) a.

Lemma element_positive x : In x a -> 1 <= x.
Proof. rewrite Forall_forall in positive. apply positive. Qed.

Lemma key_positive x : In x (keys (Counter a)) -> 1 <= x.
Proof. rewrite keys_Counter_In. apply element_positive. Qed.

(** The test of the scripts on values. *)
Let g (x y z : Z) : Z := indicator (y * y =? x * z).

Lemma naive_triplets_by_elements :
  Graph.naive_triplets a =
  sumZ (fun x => sumZ (fun y => sumZ (fun z => g x y z) a) a) a
  - 3 * sumZ (fun x => multiplicity a x) a + 2 * Z.of_nat (length a).
Proof.
  rewrite naive_triplets_sum.
  rewrite (distinct_triple_sum (fun i j k => indicator (geometric a i j k))).
  unfold geometric.
  assert (H3 :
    sumZ (fun i => sumZ (fun j => sumZ (fun k =>
      indicator (item a j * item a j =? item a i * item a k))
      (seq 0 (length a))) (seq 0 (length a))) (seq 0 (length a)) =
    sumZ (fun x => sumZ (fun y => sumZ (fun z => g x y z) a) a) a).
  { rewrite <- (sum_positions a
      (fun x => sumZ (fun y => sumZ (fun z => g x y z) a) a)).
    apply sumZ_ext_in. intros i _.
    rewrite <- (sum_positions a (fun y => sumZ (fun z => g (item a i) y z) a)).
    apply sumZ_ext_in. intros j _.
    now rewrite <- (sum_positions a (fun z => g (item a i) (item a j) z)). }
  assert (Hpair : forall h : Z -> Z -> bool,
    (forall x y, In x a -> In y a -> h x y = (y =? x)) ->
    sumZ (fun i => sumZ (fun j => indicator (h (item a i) (item a j)))
      (seq 0 (length a))) (seq 0 (length a)) =
    sumZ (fun x => multiplicity a x) a).
  { intros h Hh.
    rewrite <- (sum_positions a (fun x => multiplicity a x)).
    apply sumZ_ext_in. intros i Hi.
    rewrite (sum_positions a (fun y => indicator (h (item a i) y))).
    rewrite <- sum_equal_to. apply sumZ_ext_in. intros y Hy.
    rewrite Hh; [reflexivity| |assumption].
    apply nth_In. apply in_seq in Hi. lia. }
  rewrite H3.
  rewrite (Hpair (fun x y => y * y =? x * y)).
  2:{ intros x y Hx Hy. apply element_positive in Hx, Hy.
      destruct (Z.eqb_spec y x), (Z.eqb_spec (y * y) (x * y)); try reflexivity; nia. }
  rewrite (Hpair (fun x y => y * y =? x * x)).
  2:{ intros x y Hx Hy. apply element_positive in Hx, Hy.
      destruct (Z.eqb_spec y x), (Z.eqb_spec (y * y) (x * x)); try reflexivity; nia. }
  rewrite (Hpair (fun x z => x * x =? x * z)).
  2:{ intros x y Hx Hy. apply element_positive in Hx, Hy.
      destruct (Z.eqb_spec y x), (Z.eqb_spec (x * x) (x * y)); try reflexivity; nia. }
  rewrite (sumZ_ext_in (fun i => indicator (_ =? _)) (fun _ => 1)).
  2:{ intros i _. now rewrite Z.eqb_refl. }
  rewrite sumZ_const, length_seq. lia.
Qed.

End NaiveByValue.

Section ProgressionCount.
Import Py.
Variable a : list Z.
Hypothesis positive : Forall (fun x => 1 <= x) a.

(** Among positive values, [z] is the larger outer value of a triple
    with middle [y] and smaller outer value [x] exactly when [x < y]
    divides [y * y] and [z] is the quotient. *)
Lemma outer_pair_test (x y z : Z) :
  1 <= x -> 1 <= y -> 1 <= z ->
  (x <? z) && (y * y =? x * z) =
  (z =? y * y / x) && (((y * y) mod x =? 0) && (x <? y)).
Proof.
  intros Hx Hy Hz. apply eq_true_iff_eq.
  rewrite !andb_true_iff, !Z.ltb_lt, !Z.eqb_eq. split.
  - intros [Hlt Heq]. rewrite Heq. repeat split.
    + rewrite Z.mul_comm, Z.div_mul; lia.
    + rewrite Z.mul_comm. apply Z.mod_mul. lia.
    + nia.
  - intros (Hz' & Hmod & Hlt).
    assert (Heq : y * y = x * (y * y / x)) by (apply Z.div_exact; lia).
    rewrite <- Hz' in Heq. split; [nia|assumption].
Qed.

Lemma degenerate_term_poly (c : Z) :
  0 <= c -> degenerate_term c = c * (c - 1) * (c - 2).
Proof.
  intros Hc. unfold degenerate_term. destruct (Z.leb_spec 3 c); [reflexivity|].
  assert (c = 0 \/ c = 1 \/ c = 2) as [->|[->| ->]] by lia; reflexivity.
Qed.

(** For a middle value [y], the weighted pairs of outer values with
    product [y * y]: the pair [(y, y)], and each pair of [square_pairs]
    in its two orders. *)
Lemma outer_pairs (y : Z) :
  In y (keys (Counter a)) ->
  sumZ (fun x => sumZ (fun z =>
    multiplicity a x * multiplicity a z * indicator (y * y =? x * z))
    (keys (Counter a))) (keys (Counter a)) =
  multiplicity a y * multiplicity a y + 2 * square_pairs a y.
Proof.
  intros Hy. pose proof (key_positive a positive y Hy) as Hy1.
  set (K := keys (Counter a)). set (c := multiplicity a).
  set (t := fun x z => c x * c z * indicator (y * y =? x * z)).
  assert (Hsym : forall x z, t x z = t z x).
  { intros x z. unfold t. rewrite (Z.mul_comm x z). lia. }
  rewrite (sumZ_ext_in _ (fun x =>
    sumZ (fun z => if x <? z then t x z else 0) K +
    sumZ (fun z => if z =? x then t x z else 0) K +
    sumZ (fun z => if z <? x then t x z else 0) K)).
  2:{ intros x _. rewrite <- !sumZ_plus. apply sumZ_ext_in. intros z _.
      fold (t x z).
      destruct (Z.ltb_spec x z), (Z.eqb_spec z x), (Z.ltb_spec z x); lia. }
  rewrite !sumZ_plus.
  assert (Hlow : sumZ (fun x => sumZ (fun z => if x <? z then t x z else 0) K) K =
                 square_pairs a y).
  { unfold square_pairs.
    set (f := fun d => c (y * y / d) *
                       (if ((y * y) mod d =? 0) && (d <? y) then c d else 0)).
    rewrite (sumZ_ext_in _ f).
    2:{ intros x Hx. pose proof (key_positive a positive x Hx) as Hx1.
        rewrite (sumZ_ext_in _ (fun z =>
          if z =? y * y / x
          then c z * (if ((y * y) mod x =? 0) && (x <? y) then c x else 0)
          else 0)).
        - apply (sum_keys_pick a
            (fun _ => if ((y * y) mod x =? 0) && (x <? y) then c x else 0)).
        - intros z Hz. pose proof (key_positive a positive z Hz) as Hz1.
          pose proof (outer_pair_test x y z Hx1 Hy1 Hz1) as Ht. unfold t.
          destruct (x <? z), (y * y =? x * z), (z =? y * y / x),
            (((y * y) mod x =? 0) && (x <? y));
            simpl in Ht; try discriminate; unfold indicator; lia. }
    rewrite (sumZ_same_support f K (range 1 y)).
    - apply sumZ_ext_in. intros d Hd. apply range_In in Hd. unfold f, c.
      destruct ((y * y) mod d =? 0), (Z.ltb_spec d y); simpl; lia.
    - apply keys_Counter_NoDup.
    - apply range_NoDup.
    - intros x Hx Hnot. pose proof (key_positive a positive x Hx) as Hx1.
      rewrite range_In in Hnot. unfold f.
      destruct (Z.ltb_spec x y); [lia|]. rewrite andb_false_r. lia.
    - intros d Hd Hnot. unfold f.
      assert (Hzero : c d = 0).
      { pose proof (multiplicity_nonneg a d). unfold c.
        destruct (Z.eq_dec (multiplicity a d) 0) as [|Hne]; [assumption|].
        exfalso. apply Hnot. unfold K.
        rewrite keys_Counter_In, <- multiplicity_pos_iff. lia. }
      rewrite Hzero. destruct (_ && _); lia. }
  assert (Hhigh : sumZ (fun x => sumZ (fun z => if z <? x then t x z else 0) K) K =
                  square_pairs a y).
  { rewrite sumZ_swap, <- Hlow. apply sumZ_ext_in. intros x _.
    apply sumZ_ext_in. intros z _. now rewrite Hsym. }
  assert (Hmid : sumZ (fun x => sumZ (fun z => if z =? x then t x z else 0) K) K =
                 c y * c y).
  { rewrite (sumZ_ext_in _ (fun x => if x =? y then c x * c x else 0)).
    - apply (sum_keys_pick a (fun x => c x)).
    - intros x Hx. pose proof (key_positive a positive x Hx) as Hx1.
      rewrite (sumZ_ext_in _ (fun z =>
        if z =? x then c z * (c x * indicator (y * y =? x * x)) else 0)).
      + rewrite (sum_keys_pick a (fun _ => c x * indicator (y * y =? x * x))).
        fold c. unfold indicator.
        destruct (Z.eqb_spec x y), (Z.eqb_spec (y * y) (x * x)); try lia; nia.
      + intros z _. unfold t. destruct (Z.eqb_spec z x); [subst; lia|lia]. }
  rewrite Hlow, Hhigh, Hmid. lia.
Qed.

Lemma naive_triplets_progression_count :
  Graph.naive_triplets a = progression_count a.
Proof.
  rewrite (naive_triplets_by_elements a positive). cbv zeta.
  assert (H3 :
    sumZ (fun x => sumZ (fun y => sumZ (fun z =>
      indicator (y * y =? x * z)) a) a) a =
    sumZ (fun y => multiplicity a y *
                   (multiplicity a y * multiplicity a y + 2 * square_pairs a y))
         (keys (Counter a))).
  { rewrite sumZ_swap.
    rewrite (sum_by_value a). apply sumZ_ext_in. intros y Hy.
    rewrite <- (outer_pairs y Hy). f_equal.
    rewrite (sum_by_value a). apply sumZ_ext_in. intros x _.
    rewrite (sum_by_value a), <- sumZ_scale. apply sumZ_ext_in. intros z _.
    lia. }
  assert (H2 : sumZ (fun x => multiplicity a x) a =
               sumZ (fun v => multiplicity a v * multiplicity a v)
                    (keys (Counter a))).
  { apply (sum_by_value a). }
  assert (H1 : Z.of_nat (length a) =
               sumZ (fun v => multiplicity a v * 1) (keys (Counter a))).
  { rewrite <- (sum_by_value a (fun _ => 1)), sumZ_const. lia. }
  rewrite H3, H2, H1. unfold progression_count.
  rewrite <- !sumZ_scale, <- sumZ_minus, <- !sumZ_plus.
  apply sumZ_ext_in. intros v _.
  rewrite degenerate_term_poly by apply multiplicity_nonneg.
  lia.
Qed.

End ProgressionCount.

(** ** Running [count_triplets_optimized] *)
Section RunCount.
Import Py Exec EmpiricalTesting.
Local Open Scope exec_scope.
Variable int_sqrt_float : Z -> Z.
Variable a : list Z.

Lemma both_in_returns left right :
  both_in left right (Counter a) =
  Return (truthy (multiplicity a left) && truthy (multiplicity a right), Counter a).
Proof.
  unfold both_in, bind, freq_contains. rewrite contains_Counter.
  destruct (truthy (multiplicity a left)); simpl;
    [now rewrite contains_Counter|reflexivity].
Qed.

(** What the modes add for a pair of distinct outer values. *)
Let weight (mode : String.string) : Z := if is_ordered mode then 2 else 1.

Lemma pair_block_below mode mid d other res :
  d < mid -> d <> other ->
  pair_block mode mid (multiplicity a mid) d other res (Counter a) =
  Return (res + multiplicity a mid * multiplicity a d * multiplicity a other,
          Counter a).
Proof.
  intros Hlt Hne. unfold pair_block, bind. rewrite both_in_returns.
  pose proof (truthy_product (multiplicity a d) (multiplicity a other)
                (multiplicity a mid)) as Hp.
  destruct (truthy (multiplicity a d) && truthy (multiplicity a other)).
  - destruct (Z.eqb_spec d mid); [lia|]. simpl.
    destruct (Z.eqb_spec d other); [contradiction|].
    destruct (is_ordered mode); unfold freq_getitem, ret; cbv beta iota;
      rewrite !getitem_Counter; reflexivity.
  - unfold ret. do 2 f_equal. lia.
Qed.

Lemma pair_block_middle mode mid cnt_mid res :
  pair_block mode mid cnt_mid mid mid res (Counter a) = Return (res, Counter a).
Proof.
  unfold pair_block, bind. rewrite both_in_returns, Z.eqb_refl.
  destruct (truthy (multiplicity a mid) && truthy (multiplicity a mid));
    reflexivity.
Qed.

(** The second block never adds: its adding branch needs
    [left2 == right2], that is [other == d], under [d != other]. *)
Lemma mirror_block_returns mode mid cnt_mid d other res :
  mirror_block mode mid cnt_mid d other res (Counter a) = Return (res, Counter a).
Proof.
  unfold mirror_block, bind.
  destruct (Z.eqb_spec d other) as [|Hne]; [reflexivity|]. simpl.
  destruct (is_ordered mode); [|reflexivity].
  rewrite both_in_returns.
  destruct (truthy (multiplicity a other) && truthy (multiplicity a d));
    [|reflexivity].
  destruct ((other =? mid) && (d =? mid)); [reflexivity|].
  destruct (Z.eqb_spec other d); [congruence|reflexivity].
Qed.

Lemma symmetric_block_below mode mid m2 d other res :
  d <> other -> int_sqrt_float m2 < other ->
  symmetric_block int_sqrt_float mode mid (multiplicity a mid) m2 d other res
    (Counter a) =
  Return (res + (if is_ordered mode
                 then multiplicity a mid * multiplicity a d * multiplicity a other
                 else 0), Counter a).
Proof.
  intros Hne Hroot. unfold symmetric_block, bind.
  destruct (Z.eqb_spec d other); [contradiction|]. simpl.
  rewrite Z.gtb_ltb. destruct (Z.ltb_spec (int_sqrt_float m2) other); [|lia].
  rewrite both_in_returns.
  pose proof (truthy_product (multiplicity a other) (multiplicity a d)
                (multiplicity a mid)) as Hp.
  destruct (truthy (multiplicity a other) && truthy (multiplicity a d)).
  - destruct (Z.eqb_spec other mid), (Z.eqb_spec d mid); simpl; try lia;
      (destruct (Z.eqb_spec other d); [congruence|]);
      destruct (is_ordered mode); unfold freq_getitem, ret; cbv beta iota;
      rewrite ?getitem_Counter; do 2 f_equal; lia.
  - unfold ret. do 2 f_equal. destruct (is_ordered mode); lia.
Qed.

Lemma symmetric_block_middle mode mid cnt_mid m2 d res :
  symmetric_block int_sqrt_float mode mid cnt_mid m2 d d res (Counter a) =
  Return (res, Counter a).
Proof. unfold symmetric_block. now rewrite Z.eqb_refl. Qed.

(** What one turn of the loop adds for the divisor [d]. *)
Let turn (mode : String.string) (mid d : Z) : Z :=
  if (mid * mid) mod d =? 0 then
    if d <? mid
    then weight mode *
         (multiplicity a mid *
          (multiplicity a d * multiplicity a (mid * mid / d)))
    else 0
  else 0.

Lemma while_d_turn mode mid d res (k : Z -> M Z) :
  1 <= d <= mid -> int_sqrt_float (mid * mid) <= mid + 1 ->
  (m <- pymod (mid * mid) d ;;
   res' <-
     (if m =? 0 then
        other <- floordiv (mid * mid) d ;;
        res1 <- pair_block mode mid (multiplicity a mid) d other res ;;
        res2 <- mirror_block mode mid (multiplicity a mid) d other res1 ;;
        symmetric_block int_sqrt_float mode mid (multiplicity a mid)
          (mid * mid) d other res2
      else ret res) ;;
   k res') (Counter a) =
  k (res + turn mode mid d) (Counter a).
Proof.
  intros Hd Hroot. unfold bind at 1. rewrite pymod_returns by lia.
  unfold turn, bind.
  destruct (Z.eqb_spec ((mid * mid) mod d) 0) as [Hmod|Hmod].
  - rewrite floordiv_returns by lia.
    assert (Heq : mid * mid = d * (mid * mid / d)) by (apply Z.div_exact; lia).
    set (other := mid * mid / d) in *.
    destruct (Z.ltb_spec d mid) as [Hlt|Hge].
    + assert (Hother : mid + 1 < other) by nia.
      rewrite pair_block_below by lia.
      rewrite mirror_block_returns.
      rewrite symmetric_block_below by lia.
      unfold weight. destruct (is_ordered mode); f_equal; lia.
    + assert (d = mid) by lia. subst d.
      assert (other = mid) by nia. rewrite H.
      rewrite pair_block_middle, mirror_block_returns, symmetric_block_middle.
      f_equal. lia.
  - unfold ret. f_equal. lia.
Qed.

Lemma while_d_returns mode mid fuel d res :
  1 <= mid -> 1 <= d <= mid + 1 -> int_sqrt_float (mid * mid) <= mid + 1 ->
  (Z.to_nat (mid + 1 - d) < fuel)%nat ->
  while_d int_sqrt_float fuel mode mid (multiplicity a mid) (mid * mid) d res
    (Counter a) =
  Return (res + sumZ (turn mode mid) (range d (mid + 1)), Counter a).
Proof.
  intros Hmid Hd Hroot. revert d res Hd.
  induction fuel as [|fuel IH]; intros d res Hd Hfuel; [lia|].
  cbn [while_d].
  destruct (Z.leb_spec (d * d) (mid * mid)) as [Hle|Hgt].
  - assert (d <= mid) by nia.
    rewrite while_d_turn by (assumption || lia).
    rewrite IH by lia. rewrite (range_cons d) by lia. cbn [sumZ].
    do 2 f_equal; lia.
  - assert (d = mid + 1) by nia.
    rewrite range_nil by lia. unfold ret. cbn [sumZ]. do 2 f_equal; lia.
Qed.

Lemma turns_sum mode mid :
  sumZ (turn mode mid) (range 1 (mid + 1)) =
  weight mode * (multiplicity a mid * square_pairs a mid).
Proof.
  rewrite (sumZ_same_support _ _ (range 1 mid)).
  - unfold square_pairs. rewrite <- !sumZ_scale. apply sumZ_ext_in.
    intros d Hd. apply range_In in Hd. unfold turn.
    destruct ((mid * mid) mod d =? 0); [|lia].
    destruct (Z.ltb_spec d mid); lia.
  - apply range_NoDup.
  - apply range_NoDup.
  - intros d Hd Hnot. rewrite range_In in *. unfold turn.
    destruct ((mid * mid) mod d =? 0); [|reflexivity].
    destruct (Z.ltb_spec d mid); [lia|reflexivity].
  - intros d Hd Hnot. rewrite range_In in *. lia.
Qed.

Lemma mid_pass_returns fuel mode res mid :
  1 <= mid -> int_sqrt_float (mid * mid) <= mid + 1 -> mid < Z.of_nat fuel ->
  mid_pass int_sqrt_float fuel mode res mid (Counter a) =
  Return (res + weight mode * (multiplicity a mid * square_pairs a mid),
          Counter a).
Proof.
  intros Hmid Hroot Hfuel. unfold mid_pass, bind, freq_getitem.
  rewrite getitem_Counter, while_d_returns by lia.
  now rewrite turns_sum.
Qed.

Lemma insert_sorted_perm x l : Permutation (insert_sorted x l) (x :: l).
Proof.
  induction l as [|y l IH]; simpl; [reflexivity|].
  destruct (x <=? y); [reflexivity|].
  rewrite IH. apply perm_swap.
Qed.

Lemma sorted_perm l : Permutation (sorted l) l.
Proof.
  induction l as [|x l IH]; simpl; [constructor|].
  now rewrite insert_sorted_perm, IH.
Qed.

Lemma count_triplets_optimized_returns fuel mode :
  Forall (fun x => 1 <= x) a ->
  Forall (fun x => int_sqrt_float (x * x) <= x + 1) a ->
  Forall (fun x => x < Z.of_nat fuel) a ->
  count_triplets_optimized int_sqrt_float fuel a mode =
  Return (sumZ (fun k => degenerate_term (multiplicity a k)) (keys (Counter a)) +
          weight mode *
          sumZ (fun mid => multiplicity a mid * square_pairs a mid)
               (keys (Counter a)),
          Counter a).
Proof.
  intros Hpos Hroot Hfuel. rewrite Forall_forall in Hpos, Hroot, Hfuel.
  unfold count_triplets_optimized, count_triplets_optimized_body, bind,
    freq_keys, freq_items.
  rewrite degenerate_loop_returns, degenerate_loop_sum.
  rewrite for_each_returns with (g := fun acc mid =>
    acc + weight mode * (multiplicity a mid * square_pairs a mid)).
  2:{ intros acc mid Hin.
      assert (Hmid : In mid a).
      { apply keys_Counter_In. now apply (Permutation_in _ (sorted_perm _)). }
      apply mid_pass_returns; auto. }
  rewrite fold_left_sumZ with (f := fun mid =>
    weight mode * (multiplicity a mid * square_pairs a mid)) by reflexivity.
  rewrite (sumZ_perm _ _ _ (sorted_perm _)), sumZ_scale. reflexivity.
Qed.

End RunCount.

(** X2. The number of triples [list_triplets_bruteforce(a)] lists is the
    count of [naive_triplets(a)]: the two brute-force scripts agree. *)
Theorem list_triplets_bruteforce_length (a : list Z) :
  Z.of_nat (length (EmpiricalTesting.list_triplets_bruteforce a)) =
  Graph.naive_triplets a.
Proof. apply length_list_triplets. Qed.

(** ** What the loops enumerate and what the counts are *)

(** X5. For [mid >= 1] the set [b_set] built by lines 78-83 of
    [optimized_triplets] holds every positive divisor of [mid], each
    once, and nothing else. *)
Theorem b_set_is_divisor_set (mid : Z) :
  1 <= mid ->
  NoDup (Graph.b_set_of mid) /\
  forall b, In b (Graph.b_set_of mid) <-> 1 <= b /\ (b | mid).
Proof.
  intros Hmid. split; [apply b_set_of_NoDup|].
  intros b. rewrite b_set_of_In by assumption. split.
  - intros [Hb Hmod]. split; [lia|]. apply Z.mod_divide; lia.
  - intros [Hb Hdiv]. apply Z.mod_divide in Hdiv; [|lia].
    destruct (cofactor mid b) as (_ & _ & Hle & _); lia.
Qed.

Lemma b_set_is_divisor_set_witness :
  1 <= 12 /\ NoDup (Graph.b_set_of 12) /\
  (In 4 (Graph.b_set_of 12) <-> 1 <= 4 /\ (4 | 12)).
Proof.
  assert (H : 1 <= 12) by lia.
  destruct (b_set_is_divisor_set 12 H) as [Hnd Hin].
  split; [exact H|]. split; [exact Hnd|exact (Hin 4)].
Defined.

(** X6. [freq = Counter(a)] answers [freq[x]] and [freq.get(x, 0)] with
    the number of positions of [a] that hold [x], which is 0 for a value
    that does not occur; [x in freq] holds exactly for the values that
    occur, and no key is stored twice. *)
Theorem counter_lookup (a : list Z) (x : Z) :
  Py.getitem (Py.Counter a) x = Z.of_nat (count_occ Z.eq_dec a x) /\
  Py.get (Py.Counter a) x 0 = Z.of_nat (count_occ Z.eq_dec a x) /\
  (Py.contains (Py.Counter a) x = true <-> In x a) /\
  (~ In x a -> Py.getitem (Py.Counter a) x = 0) /\
  NoDup (Py.keys (Py.Counter a)) /\
  (In x (Py.keys (Py.Counter a)) <-> In x a).
Proof.
  pose proof (getitem_Counter a x) as Hget. unfold multiplicity in Hget.
  split; [exact Hget|]. split; [exact Hget|].
  split; [rewrite contains_keys; apply keys_Counter_In|].
  split.
  { intros Hnot. rewrite Hget.
    apply (count_occ_not_In Z.eq_dec) in Hnot. now rewrite Hnot. }
  split; [apply keys_Counter_NoDup|apply keys_Counter_In].
Qed.

Lemma counter_lookup_witness :
  ~ In 5 [7; 1; 7] /\ Py.getitem (Py.Counter [7; 1; 7]) 5 = 0 /\
  Py.getitem (Py.Counter [7; 1; 7]) 7 = 2.
Proof.
  assert (H : ~ In 5 [7; 1; 7]) by (simpl; lia).
  destruct (counter_lookup [7; 1; 7] 5) as (_ & _ & _ & Hzero & _).
  destruct (counter_lookup [7; 1; 7] 7) as (Hget & _).
  split; [exact H|]. split; [exact (Hzero H)|exact Hget].
Defined.

Lemma solve_count_surplus (a : list Z) :
  solve_count a = ratio_count a + surplus_beyond_limit a.
Proof.
  unfold solve_count, ratio_count, surplus_beyond_limit.
  rewrite <- Z.add_assoc. f_equal. rewrite <- sumZ_plus.
  apply sumZ_ext_in. intros mid _. rewrite <- sumZ_plus.
  apply sumZ_ext_in. intros b _.
  unfold solve_contribution, pair_contribution. fold (pair_product a mid b).
  rewrite Z.geb_leb.
  destruct (Z.leb_spec 1000000 mid), (Z.ltb_spec mid 1000000); try lia;
    destruct (Z.leb_spec (mid * b) LIMIT), (Z.ltb_spec LIMIT (mid * b));
    simpl; lia.
Qed.

Lemma pair_product_nonneg (a : list Z) (mid b : Z) : 0 <= pair_product a mid b.
Proof.
  unfold pair_product.
  repeat apply Z.mul_nonneg_nonneg; apply multiplicity_nonneg.
Qed.

(** X7. On every integer sequence [solve_optimized] returns the count of
    [optimized_triplets] plus the contributions of the pairs of a middle
    value below 1_000_000 whose right value exceeds [LIMIT]; this
    surplus is never negative, and it is 0 when no value of the sequence
    exceeds [LIMIT]. *)
Theorem solve_optimized_at_least_optimized (a : list Z) (fuel : nat) :
  (1000 <= fuel)%nat ->
  SolveOptimized.solve_optimized fuel a =
    Exec.Return (Graph.optimized_triplets a + surplus_beyond_limit a,
                 Py.Counter a) /\
  0 <= surplus_beyond_limit a /\
  (Forall (fun x => x <= LIMIT) a -> surplus_beyond_limit a = 0).
Proof.
  intros Hfuel. split; [|split].
  - rewrite solve_optimized_returns by assumption.
    now rewrite solve_count_surplus, optimized_triplets_ratio_count.
  - unfold surplus_beyond_limit. apply sumZ_nonneg. intros mid _.
    apply sumZ_nonneg. intros b _.
    destruct (_ && _); [apply pair_product_nonneg|lia].
  - intros Ha. unfold surplus_beyond_limit. apply sumZ_zero. intros mid _.
    apply sumZ_zero. intros b _.
    destruct (mid <? 1000000); simpl; [|reflexivity].
    destruct (Z.ltb_spec LIMIT (mid * b)) as [Hgt|]; [|reflexivity].
    rewrite (pair_product_bounded a mid b Ha). unfold pair_contribution.
    destruct (Z.leb_spec (mid * b) LIMIT); [lia|reflexivity].
Qed.

Lemma solve_optimized_at_least_optimized_witness :
  (1000 <= 1000)%nat /\ Forall (fun x => x <= LIMIT) [3; 6; 12; 1000000000] /\
  SolveOptimized.solve_optimized 1000 [1; 31623; 1000014129] =
    Exec.Return (Graph.optimized_triplets [1; 31623; 1000014129] +
                 surplus_beyond_limit [1; 31623; 1000014129],
                 Py.Counter [1; 31623; 1000014129]) /\
  0 <= surplus_beyond_limit [1; 31623; 1000014129] /\
  surplus_beyond_limit [3; 6; 12; 1000000000] = 0.
Proof.
  assert (H : (1000 <= 1000)%nat) by lia.
  assert (Ha : Forall (fun x => x <= LIMIT) [3; 6; 12; 1000000000])
    by (unfold LIMIT; repeat constructor; lia).
  destruct (solve_optimized_at_least_optimized [1; 31623; 1000014129] 1000 H)
    as (Hrun & Hpos & _).
  destruct (solve_optimized_at_least_optimized [3; 6; 12; 1000000000] 1000 H)
    as (_ & _ & Hzero).
  split; [exact H|]. split; [exact Ha|]. split; [exact Hrun|].
  split; [exact Hpos|exact (Hzero Ha)].
Defined.

(** The pairs of [optimized_triplets] are among those of [square_pairs]:
    the ratio [b] gives the smaller outer value [mid / b]. *)
Lemma ratio_pairs_le_square_pairs (a : list Z) (mid : Z) :
  1 <= mid ->
  sumZ (fun b => multiplicity a (mid / b) * multiplicity a (mid * b))
       (ratios mid) <= square_pairs a mid.
Proof.
  intros Hmid. unfold square_pairs.
  set (h := fun d => if (mid * mid) mod d =? 0
                     then multiplicity a d * multiplicity a (mid * mid / d)
                     else 0).
  assert (Hfacts : forall b, In b (ratios mid) ->
            mid = b * (mid / b) /\ 1 <= mid / b < mid).
  { intros b Hb. apply ratios_In in Hb.
    destruct (cofactor mid b) as (Heq & Hq & _); try lia.
    split; [assumption|]. split; [lia|]. apply Z.div_lt; lia. }
  rewrite (sumZ_ext_in _ (fun b => h (mid / b))).
  2:{ intros b Hb. destruct (Hfacts b Hb) as (Heq & Hq). unfold h.
      assert (Hsq : mid * mid = mid * b * (mid / b)) by nia.
      assert (Hmod : (mid * mid) mod (mid / b) = 0)
        by (rewrite Hsq; apply Z.mod_mul; lia).
      assert (Hdiv : mid * mid / (mid / b) = mid * b)
        by (rewrite Hsq; apply Z.div_mul; lia).
      now rewrite Hmod, Hdiv. }
  rewrite <- sumZ_map. apply sumZ_incl_le.
  - apply NoDup_map_NoDup_ForallPairs; [|apply ratios_NoDup].
    intros x y Hx Hy Heq.
    destruct (Hfacts x Hx) as (Hx1 & Hx2), (Hfacts y Hy) as (Hy1 & Hy2).
    rewrite <- Heq in Hy1. nia.
  - intros d Hd. apply in_map_iff in Hd. destruct Hd as (b & <- & Hb).
    destruct (Hfacts b Hb) as (_ & Hq). apply range_In. lia.
  - intros d _. unfold h. destruct (_ =? 0); [|lia].
    apply Z.mul_nonneg_nonneg; apply multiplicity_nonneg.
Qed.

Lemma square_pairs_nonneg (a : list Z) (mid : Z) : 0 <= square_pairs a mid.
Proof.
  unfold square_pairs. apply sumZ_nonneg. intros d _.
  destruct (_ =? 0); [|lia].
  apply Z.mul_nonneg_nonneg; apply multiplicity_nonneg.
Qed.

Lemma ratio_count_le_progression_count (a : list Z) :
  Forall (fun x => 1 <= x) a ->
  0 <= ratio_count a <= progression_count a.
Proof.
  intros Hpos. unfold ratio_count, progression_count. split.
  - apply Z.add_nonneg_nonneg; apply sumZ_nonneg.
    + intros k _. unfold degenerate_term.
      destruct (Z.leb_spec 3 (multiplicity a k)); [nia|lia].
    + intros mid _. apply sumZ_nonneg. intros b _. unfold pair_contribution.
      destruct (_ <=? _); [|lia].
      repeat apply Z.mul_nonneg_nonneg; apply multiplicity_nonneg.
  - apply Z.add_le_mono_l. rewrite <- sumZ_scale. apply sumZ_le.
    intros mid Hmid. pose proof (key_positive a Hpos mid Hmid) as Hmid1.
    pose proof (ratio_pairs_le_square_pairs a mid Hmid1) as Hle.
    pose proof (square_pairs_nonneg a mid).
    pose proof (multiplicity_nonneg a mid) as Hc.
    apply Z.le_trans with
      (multiplicity a mid *
       sumZ (fun b => multiplicity a (mid / b) * multiplicity a (mid * b))
            (ratios mid)); [|nia].
    rewrite <- sumZ_scale. apply sumZ_le. intros b _. unfold pair_contribution.
    destruct (_ <=? _); [lia|].
    pose proof (multiplicity_nonneg a (mid / b)).
    pose proof (multiplicity_nonneg a (mid * b)). nia.
Qed.

(** X8. On a sequence of positive integers the brute-force count is the
    count by values: [c * (c - 1) * (c - 2)] for each distinct value of
    multiplicity [c >= 3], and, for each distinct middle value [mid] and
    each divisor [d < mid] of [mid * mid], twice the product of the
    multiplicities of [mid], [d] and [mid * mid / d]. *)
Theorem naive_triplets_by_values (a : list Z) :
  Forall (fun x => 1 <= x) a ->
  Graph.naive_triplets a =
  sumZ (fun k => degenerate_term (multiplicity a k)) (Py.keys (Py.Counter a)) +
  2 * sumZ (fun mid =>
        multiplicity a mid *
        sumZ (fun d => if (mid * mid) mod d =? 0
                       then multiplicity a d * multiplicity a (mid * mid / d)
                       else 0)
             (Py.range 1 mid))
      (Py.keys (Py.Counter a)).
Proof. intros Hpos. now apply naive_triplets_progression_count. Qed.

Lemma naive_triplets_by_values_witness :
  Forall (fun x => 1 <= x) [4; 6; 9; 6] /\
  Graph.naive_triplets [4; 6; 9; 6] =
  sumZ (fun k => degenerate_term (multiplicity [4; 6; 9; 6] k))
       (Py.keys (Py.Counter [4; 6; 9; 6])) +
  2 * sumZ (fun mid =>
        multiplicity [4; 6; 9; 6] mid *
        sumZ (fun d => if (mid * mid) mod d =? 0
                       then multiplicity [4; 6; 9; 6] d *
                            multiplicity [4; 6; 9; 6] (mid * mid / d)
                       else 0)
             (Py.range 1 mid))
      (Py.keys (Py.Counter [4; 6; 9; 6])).
Proof.
  assert (H : Forall (fun x => 1 <= x) [4; 6; 9; 6]) by (repeat constructor; lia).
  split; [exact H|]. exact (naive_triplets_by_values [4; 6; 9; 6] H).
Defined.

(** X9. On a sequence of positive integers [optimized_triplets] never
    counts more than the brute force, and never less than 0: it counts a
    part of the triples that [naive_triplets] counts. *)
Theorem optimized_at_most_naive (a : list Z) :
  Forall (fun x => 1 <= x) a ->
  0 <= Graph.optimized_triplets a <= Graph.naive_triplets a.
Proof.
  intros Hpos. rewrite optimized_triplets_ratio_count.
  rewrite (naive_triplets_progression_count a Hpos).
  now apply ratio_count_le_progression_count.
Qed.

Lemma optimized_at_most_naive_witness :
  Forall (fun x => 1 <= x) [4; 6; 9; 3; 12] /\
  0 <= Graph.optimized_triplets [4; 6; 9; 3; 12]
    <= Graph.naive_triplets [4; 6; 9; 3; 12].
Proof.
  assert (H : Forall (fun x => 1 <= x) [4; 6; 9; 3; 12])
    by (repeat constructor; lia).
  split; [exact H|]. exact (optimized_at_most_naive [4; 6; 9; 3; 12] H).
Defined.

(** ** [count_triplets_optimized] against the brute force *)

Lemma naive_twice_unordered (a : list Z) :
  Graph.naive_triplets a = 2 * SolveNaive.solve_naive_unordered (length a) a.
Proof. rewrite naive_triplets_sum. apply ordered_sum_twice_unordered. Qed.

(** X10. On a sequence of positive integers, with fuel above every value
    and [int(m2 ** 0.5)] at most one above the root of each square
    [m2 = mid * mid], [count_triplets_optimized(a, "ordered")] returns the
    brute-force count, which is the number of triples that
    [list_triplets_bruteforce(a)] lists: [debug_compare] finds a match. *)
Theorem count_triplets_optimized_matches_bruteforce
    (int_sqrt_float : Z -> Z) (a : list Z) (fuel : nat) :
  Forall (fun x => 1 <= x) a ->
  Forall (fun x => int_sqrt_float (x * x) <= x + 1) a ->
  Forall (fun x => x < Z.of_nat fuel) a ->
  EmpiricalTesting.count_triplets_optimized int_sqrt_float fuel a "ordered" =
    Exec.Return (Graph.naive_triplets a, Py.Counter a) /\
  Graph.naive_triplets a =
    Z.of_nat (length (EmpiricalTesting.list_triplets_bruteforce a)).
Proof.
  intros Hpos Hroot Hfuel. split; [|symmetry; apply length_list_triplets].
  rewrite count_triplets_optimized_returns by assumption.
  rewrite (naive_triplets_progression_count a Hpos). reflexivity.
Qed.

Lemma count_triplets_optimized_matches_bruteforce_witness :
  Forall (fun x => 1 <= x) [1; 1; 2; 2; 4; 4; 8; 8] /\
  Forall (fun x => Z.sqrt (x * x) <= x + 1) [1; 1; 2; 2; 4; 4; 8; 8] /\
  Forall (fun x => x < Z.of_nat 9) [1; 1; 2; 2; 4; 4; 8; 8] /\
  EmpiricalTesting.count_triplets_optimized Z.sqrt 9 [1; 1; 2; 2; 4; 4; 8; 8]
    "ordered" =
    Exec.Return (Graph.naive_triplets [1; 1; 2; 2; 4; 4; 8; 8],
                 Py.Counter [1; 1; 2; 2; 4; 4; 8; 8]).
Proof.
  assert (H1 : Forall (fun x => 1 <= x) [1; 1; 2; 2; 4; 4; 8; 8])
    by (repeat constructor; lia).
  assert (H2 : Forall (fun x => Z.sqrt (x * x) <= x + 1) [1; 1; 2; 2; 4; 4; 8; 8])
    by (repeat constructor; vm_compute; intros H; discriminate H).
  assert (H3 : Forall (fun x => x < Z.of_nat 9) [1; 1; 2; 2; 4; 4; 8; 8])
    by (repeat constructor; simpl; lia).
  split; [exact H1|]. split; [exact H2|]. split; [exact H3|].
  exact (proj1 (count_triplets_optimized_matches_bruteforce Z.sqrt _ 9 H1 H2 H3)).
Defined.

(** X11. Under the same conditions and in every mode other than
    ["ordered"], [count_triplets_optimized] counts each pair of distinct
    outer values once but keeps the whole term [c * (c - 1) * (c - 2)] of
    equal values: twice its result is twice the count of
    [solve_naive_unordered] plus the sum of these terms. *)
Theorem count_triplets_optimized_unordered
    (int_sqrt_float : Z -> Z) (a : list Z) (fuel : nat) (mode : String.string) :
  mode <> "ordered"%string ->
  Forall (fun x => 1 <= x) a ->
  Forall (fun x => int_sqrt_float (x * x) <= x + 1) a ->
  Forall (fun x => x < Z.of_nat fuel) a ->
  exists u,
    EmpiricalTesting.count_triplets_optimized int_sqrt_float fuel a mode =
      Exec.Return (u, Py.Counter a) /\
    2 * u =
      2 * SolveNaive.solve_naive_unordered (length a) a +
      sumZ (fun k => degenerate_term (multiplicity a k)) (Py.keys (Py.Counter a)).
Proof.
  intros Hmode Hpos Hroot Hfuel.
  rewrite count_triplets_optimized_returns by assumption.
  assert (Hunordered : EmpiricalTesting.is_ordered mode = false).
  { unfold EmpiricalTesting.is_ordered. now apply String.eqb_neq. }
  rewrite Hunordered. eexists. split; [reflexivity|].
  rewrite <- naive_twice_unordered.
  rewrite (naive_triplets_progression_count a Hpos). unfold progression_count.
  lia.
Qed.

Lemma count_triplets_optimized_unordered_witness :
  "unordered"%string <> "ordered"%string /\
  Forall (fun x => 1 <= x) [2; 2; 2; 1; 4] /\
  Forall (fun x => Z.sqrt (x * x) <= x + 1) [2; 2; 2; 1; 4] /\
  Forall (fun x => x < Z.of_nat 5) [2; 2; 2; 1; 4] /\
  exists u,
    EmpiricalTesting.count_triplets_optimized Z.sqrt 5 [2; 2; 2; 1; 4]
      "unordered" = Exec.Return (u, Py.Counter [2; 2; 2; 1; 4]) /\
    2 * u =
      2 * SolveNaive.solve_naive_unordered (length [2; 2; 2; 1; 4]%Z)
            [2; 2; 2; 1; 4] +
      sumZ (fun k => degenerate_term (multiplicity [2; 2; 2; 1; 4] k))
           (Py.keys (Py.Counter [2; 2; 2; 1; 4])).
Proof.
  assert (H0 : "unordered"%string <> "ordered"%string)
    by (intros H; discriminate H).
  assert (H1 : Forall (fun x => 1 <= x) [2; 2; 2; 1; 4])
    by (repeat constructor; lia).
  assert (H2 : Forall (fun x => Z.sqrt (x * x) <= x + 1) [2; 2; 2; 1; 4])
    by (repeat constructor; vm_compute; intros H; discriminate H).
  assert (H3 : Forall (fun x => x < Z.of_nat 5) [2; 2; 2; 1; 4])
    by (repeat constructor; simpl; lia).
  split; [exact H0|]. split; [exact H1|]. split; [exact H2|]. split; [exact H3|].
  exact (count_triplets_optimized_unordered Z.sqrt _ 5 _ H0 H1 H2 H3).
Defined.

(** X12. The block of lines 72-94 of [count_triplets_optimized], meant
    for the symmetric pair in ordered mode, never changes [res] and never
    raises, whatever the mode, the integers and the Counter: its only
    addition sits under [left2 == right2], which [d != other] excludes. *)
Theorem mirror_block_adds_nothing
    (freq : Py.counter) (mode : String.string) (mid cnt_mid d other res : Z) :
  EmpiricalTesting.mirror_block mode mid cnt_mid d other res freq =
  Exec.Return (res, freq).
Proof.
  unfold EmpiricalTesting.mirror_block, EmpiricalTesting.both_in, Exec.bind,
    Exec.freq_contains, Exec.ret.
  destruct (Z.eqb_spec d other) as [|Hne]; [reflexivity|]. simpl.
  destruct (EmpiricalTesting.is_ordered mode); [|reflexivity].
  destruct (Py.contains freq other); [|reflexivity].
  destruct (Py.contains freq d); [|reflexivity].
  destruct ((other =? mid) && (d =? mid)); [reflexivity|].
  destruct (Z.eqb_spec other d); [congruence|reflexivity].
Qed.

(** ** The order of the sequence does not matter *)
Section Rearranged.
Import Py.
Variables a a' : list Z.
Hypothesis rearranged : Permutation a a'.

Lemma multiplicity_rearranged x : multiplicity a x = multiplicity a' x.
Proof.
  unfold multiplicity. f_equal.
  now apply (Permutation_count_occ Z.eq_dec).
Qed.

Lemma keys_rearranged : Permutation (keys (Counter a)) (keys (Counter a')).
Proof.
  apply NoDup_Permutation; try apply keys_Counter_NoDup.
  intros x. rewrite !keys_Counter_In. split; apply Permutation_in.
  - assumption.
  - now apply Permutation_sym.
Qed.

Lemma degenerate_sum_rearranged :
  sumZ (fun k => degenerate_term (multiplicity a k)) (keys (Counter a)) =
  sumZ (fun k => degenerate_term (multiplicity a' k)) (keys (Counter a')).
Proof.
  rewrite (sumZ_perm _ _ _ keys_rearranged). apply sumZ_ext_in.
  intros k _. now rewrite multiplicity_rearranged.
Qed.

Lemma ratio_count_rearranged : ratio_count a = ratio_count a'.
Proof.
  unfold ratio_count. rewrite degenerate_sum_rearranged. f_equal.
  rewrite (sumZ_perm _ _ _ keys_rearranged). apply sumZ_ext_in. intros mid _.
  apply sumZ_ext_in. intros b _. unfold pair_contribution.
  now rewrite !multiplicity_rearranged.
Qed.

Lemma solve_count_rearranged : solve_count a = solve_count a'.
Proof.
  unfold solve_count. rewrite degenerate_sum_rearranged. f_equal.
  rewrite (sumZ_perm _ _ _ keys_rearranged). apply sumZ_ext_in. intros mid _.
  apply sumZ_ext_in. intros b _.
  unfold solve_contribution, pair_contribution, pair_product.
  now rewrite !multiplicity_rearranged.
Qed.

Lemma progression_count_rearranged : progression_count a = progression_count a'.
Proof.
  unfold progression_count. rewrite degenerate_sum_rearranged. do 2 f_equal.
  rewrite (sumZ_perm _ _ _ keys_rearranged). apply sumZ_ext_in. intros mid _.
  rewrite multiplicity_rearranged. f_equal. unfold square_pairs.
  apply sumZ_ext_in. intros d _. now rewrite !multiplicity_rearranged.
Qed.

End Rearranged.

(** X13. Rearranging the sequence changes none of the counts:
    [optimized_triplets] gives the same count, [solve_optimized] returns
    one and the same count on both arrangements, and, on positive
    integers, the brute force gives the same count. *)
Theorem counts_ignore_order (a a' : list Z) (fuel : nat) :
  Permutation a a' -> (1000 <= fuel)%nat ->
  Graph.optimized_triplets a = Graph.optimized_triplets a' /\
  (exists n,
     SolveOptimized.solve_optimized fuel a = Exec.Return (n, Py.Counter a) /\
     SolveOptimized.solve_optimized fuel a' = Exec.Return (n, Py.Counter a')) /\
  (Forall (fun x => 1 <= x) a -> Graph.naive_triplets a = Graph.naive_triplets a').
Proof.
  intros Hperm Hfuel. split; [|split].
  - rewrite !optimized_triplets_ratio_count. now apply ratio_count_rearranged.
  - exists (solve_count a). rewrite !solve_optimized_returns by assumption.
    split; [reflexivity|]. now rewrite (solve_count_rearranged a a' Hperm).
  - intros Hpos.
    assert (Hpos' : Forall (fun x => 1 <= x) a').
    { rewrite Forall_forall in *. intros x Hx. apply Hpos.
      now apply (Permutation_in _ (Permutation_sym Hperm)). }
    rewrite (naive_triplets_progression_count a Hpos).
    rewrite (naive_triplets_progression_count a' Hpos').
    now apply progression_count_rearranged.
Qed.

Lemma counts_ignore_order_witness :
  Permutation [1; 2; 4] [4; 1; 2] /\ (1000 <= 1000)%nat /\
  Forall (fun x => 1 <= x) [1; 2; 4] /\
  Graph.optimized_triplets [1; 2; 4] = Graph.optimized_triplets [4; 1; 2] /\
  (exists n,
     SolveOptimized.solve_optimized 1000 [1; 2; 4] =
       Exec.Return (n, Py.Counter [1; 2; 4]) /\
     SolveOptimized.solve_optimized 1000 [4; 1; 2] =
       Exec.Return (n, Py.Counter [4; 1; 2])) /\
  Graph.naive_triplets [1; 2; 4] = Graph.naive_triplets [4; 1; 2].
Proof.
  assert (Hperm : Permutation [1; 2; 4] [4; 1; 2]).
  { apply Permutation_sym. apply (Permutation_cons_app [1; 2] [] 4).
    apply Permutation_refl. }
  assert (Hfuel : (1000 <= 1000)%nat) by lia.
  assert (Hpos : Forall (fun x => 1 <= x) [1; 2; 4]) by (repeat constructor; lia).
  destruct (counts_ignore_order [1; 2; 4] [4; 1; 2] 1000 Hperm Hfuel)
    as (Hopt & Hsolve & Hnaive).
  split; [exact Hperm|]. split; [exact Hfuel|]. split; [exact Hpos|].
  split; [exact Hopt|]. split; [exact Hsolve|exact (Hnaive Hpos)].
Defined.
